(** * lost-pixel: the configuration layer ([src/config.ts])

    The configuration module declares the schemas of the two run modes with
    the zod validation library, chooses the schema to validate a user
    configuration against, reports validation issues and installs the
    validated configuration.  This development embeds

    - the JavaScript values a configuration file can hold ([JS]),
    - the part of zod the schemas are built from ([Zod]): the schemas are
      values in the source ([z.object({...})]), so they are values here,
      with [Zod.parse] as their meaning,
    - the schemas of [src/config.ts], [isPlatformModeConfig],
      [printConfigErrors], [parseConfig], [loadProjectConfig] and
      [configure],
    - the pipeline stages that read the configuration but live in other
      modules, written from the specification ([Pipeline]),

    and then states and proves what the specification says of them. *)

From Stdlib Require Import String Ascii List Bool Arith ZArith QArith Qround Lia.
From Stdlib Require Import DecimalString.
Import ListNotations.

Local Close Scope Q_scope.
Local Open Scope list_scope.
Local Open Scope string_scope.

(* ------------------------------------------------------------------ *)
(** ** JavaScript values *)

Module JS.

(** A function value.  zod's function schema returns a wrapper that checks
    arguments and result when called: [Checked f]. *)
Inductive fn : Type :=
| Native (name : string)
| Checked (inner : fn).

(** Numbers are idealised as rationals, with NaN apart. *)
#[local] Unset Elimination Schemes.
Inductive value : Type :=
| VUndefined
| VNull
| VBool (b : bool)
| VNum (q : Q)
| VNaN
| VStr (s : string)
| VArr (items : list value)
| VObj (props : list (string * value))
| VFun (f : fn).
#[local] Set Elimination Schemes.

(** An object is the list of its own properties, in insertion order. *)
Definition obj : Type := list (string * value).

Section Assoc.
Context {A : Type}.

(** [k in o] *)
Fixpoint has (k : string) (o : list (string * A)) : bool :=
  match o with
  | [] => false
  | (k', _) :: rest => if String.eqb k k' then true else has k rest
  end.

Fixpoint lookup (k : string) (o : list (string * A)) : option A :=
  match o with
  | [] => None
  | (k', v) :: rest => if String.eqb k k' then Some v else lookup k rest
  end.

(** [o[k] = v]: an existing property keeps its place, a new one comes
    last. *)
Fixpoint set (k : string) (v : A) (o : list (string * A)) : list (string * A) :=
  match o with
  | [] => [(k, v)]
  | (k', v') :: rest =>
      if String.eqb k k' then (k, v) :: rest else (k', v') :: set k v rest
  end.

(** [{...o, ...more}] *)
Definition spread (o more : list (string * A)) : list (string * A) :=
  fold_left (fun acc kv => set (fst kv) (snd kv) acc) more o.
End Assoc.

(** [o.k]: a missing property reads as [undefined]. *)
Definition get (k : string) (o : obj) : value :=
  match lookup k o with
  | Some v => v
  | None => VUndefined
  end.

Definition is_undefined (v : value) : bool :=
  match v with
  | VUndefined => true
  | _ => false
  end.

(** ToBoolean *)
Definition truthy (v : value) : bool :=
  match v with
  | VUndefined | VNull | VNaN => false
  | VBool b => b
  | VNum q => negb (Qeq_bool q 0)
  | VStr s => negb (String.eqb s "")
  | VArr _ | VObj _ | VFun _ => true
  end.

(** [s.includes(chunk)] *)
Definition includes (s chunk : string) : bool :=
  match String.index 0 chunk s with
  | Some _ => true
  | None => false
  end.

(** [xs.join(sep)] on strings *)
Definition join (sep : string) (xs : list string) : string :=
  String.concat sep xs.

Definition nl : string := String (ascii_of_nat 10) EmptyString.

Definition string_of_nat (n : nat) : string :=
  NilZero.string_of_uint (Nat.to_uint n).

End JS.
Import JS.

(* ------------------------------------------------------------------ *)
(** ** The zod schemas used by the configuration *)

Module Zod.

Inductive seg : Type :=
| Key (k : string)
| Idx (i : nat).

(** What [printConfigErrors] reads of a [ZodIssue]. *)
Record issue : Type := mkIssue { path : list seg; message : string }.

#[local] Unset Elimination Schemes.
Inductive schema : Type :=
| ZString
| ZNumber
| ZBoolean
| ZFunction
| ZEnum (options : list string)
| ZArray (element : schema)
| ZObject (shape : list (string * schema))
| ZOptional (inner : schema)
| ZDefault (inner : schema) (dflt : value)
| ZUnion (alternatives : list schema).
#[local] Set Elimination Schemes.

Inductive parsed : Type :=
| Valid (data : value)
| Invalid (issues : list issue).

Definition issues_of (r : parsed) : list issue :=
  match r with
  | Valid _ => []
  | Invalid errs => errs
  end.

Definition is_valid (r : parsed) : bool :=
  match r with
  | Valid _ => true
  | Invalid _ => false
  end.

(** [getParsedType] *)
Definition parsedType (v : value) : string :=
  match v with
  | VUndefined => "undefined"
  | VNull => "null"
  | VBool _ => "boolean"
  | VNum _ => "number"
  | VNaN => "nan"
  | VStr _ => "string"
  | VArr _ => "array"
  | VObj _ => "object"
  | VFun _ => "function"
  end.

(** The default error map, for an [invalid_type] issue. *)
Definition invalid_type (expected : string) (v : value) (p : list seg) : issue :=
  mkIssue p
    (if is_undefined v then "Required"
     else "Expected " ++ expected ++ ", received " ++ parsedType v).

(** [util.joinValues] *)
Definition joinValues (options : list string) : string :=
  join " | " (map (fun o => "'" ++ o ++ "'") options).

Definition invalid_enum_value (options : list string) (received : string)
    (p : list seg) : issue :=
  mkIssue p
    ("Invalid enum value. Expected " ++ joinValues options
       ++ ", received '" ++ received ++ "'").

Definition invalid_union (p : list seg) : issue := mkIssue p "Invalid input".

Definition mem (x : string) (xs : list string) : bool :=
  existsb (String.eqb x) xs.

(** The parsed fields of an object: key, [key in data], result. *)
Definition field : Type := string * bool * parsed.

Definition field_issues (f : field) : list issue := issues_of (snd f).

(** A key is written to the output when its value is defined or the key was
    present in the input. *)
Definition field_output (f : field) : obj :=
  match f with
  | (k, alwaysSet, Valid d) =>
      if negb (is_undefined d) || alwaysSet then [(k, d)] else []
  | (_, _, Invalid _) => []
  end.

Definition mergeObject (fields : list field) : parsed :=
  if forallb (fun f => is_valid (snd f)) fields
  then Valid (VObj (flat_map field_output fields))
  else Invalid (flat_map field_issues fields).

Definition item_output (r : parsed) : list value :=
  match r with
  | Valid d => [d]
  | Invalid _ => []
  end.

Definition mergeArray (items : list parsed) : parsed :=
  if forallb is_valid items
  then Valid (VArr (flat_map item_output items))
  else Invalid (flat_map issues_of items).

Section Indexed.
Context {A B : Type} (f : nat -> A -> B).

Fixpoint mapi_from (i : nat) (xs : list A) : list B :=
  match xs with
  | [] => []
  | x :: rest => f i x :: mapi_from (S i) rest
  end.
End Indexed.

(** The first alternative that accepts the input. *)
Fixpoint first_valid (rs : list parsed) : option value :=
  match rs with
  | [] => None
  | Valid d :: _ => Some d
  | Invalid _ :: rest => first_valid rest
  end.

(** [schema._parse], with the issues it adds to the context. *)
Fixpoint parse (s : schema) (p : list seg) (v : value) {struct s} : parsed :=
  match s with
  | ZString =>
      match v with
      | VStr _ => Valid v
      | _ => Invalid [invalid_type "string" v p]
      end
  | ZNumber =>
      match v with
      | VNum _ => Valid v
      | _ => Invalid [invalid_type "number" v p]
      end
  | ZBoolean =>
      match v with
      | VBool _ => Valid v
      | _ => Invalid [invalid_type "boolean" v p]
      end
  | ZFunction =>
      match v with
      | VFun f => Valid (VFun (Checked f))
      | _ => Invalid [invalid_type "function" v p]
      end
  | ZEnum options =>
      match v with
      | VStr x =>
          if mem x options then Valid v
          else Invalid [invalid_enum_value options x p]
      | _ => Invalid [invalid_type (joinValues options) v p]
      end
  | ZArray element =>
      match v with
      | VArr items =>
          mergeArray
            (mapi_from (fun i x => parse element (p ++ [Idx i])%list x) 0 items)
      | _ => Invalid [invalid_type "array" v p]
      end
  | ZObject shape =>
      match v with
      | VObj o =>
          mergeObject
            (map (fun ks => (fst ks, has (fst ks) o,
                             parse (snd ks) (p ++ [Key (fst ks)])%list (get (fst ks) o)))
                 shape)
      | _ => Invalid [invalid_type "object" v p]
      end
  | ZOptional inner =>
      match v with
      | VUndefined => Valid VUndefined
      | _ => parse inner p v
      end
  | ZDefault inner dflt =>
      match v with
      | VUndefined => parse inner p dflt
      | _ => parse inner p v
      end
  | ZUnion alternatives =>
      match first_valid (map (fun a => parse a p v) alternatives) with
      | Some d => Valid d
      | None => Invalid [invalid_union p]
      end
  end.

(** [schema.safeParse(data)] *)
Definition safeParse (s : schema) (data : value) : parsed := parse s [] data.

(** [base.extend(augmentation)] on the shapes *)
Definition extend (base augmentation : list (string * schema))
  : list (string * schema) :=
  spread base augmentation.

End Zod.
Import Zod.

(* ------------------------------------------------------------------ *)
(** ** [src/config.ts] *)

(** Numeric literals of the source. *)
Definition num (z : Z) : value := VNum (inject_Z z).

Definition MaskSchema : schema :=
  ZObject [("selector", ZString)].

Definition PageScreenshotParameterSchema : schema :=
  ZObject
    [("path", ZString);
     ("name", ZString);
     ("waitBeforeScreenshot", ZDefault ZNumber (num 1000));
     ("threshold", ZDefault ZNumber (num 0));
     ("breakpoints", ZArray ZNumber);
     ("viewport",
      ZOptional (ZObject [("width", ZOptional ZNumber);
                          ("height", ZOptional ZNumber)]));
     ("mask", ZOptional (ZArray MaskSchema))].

Definition StorybookShotsSchema : schema :=
  ZObject
    [("storybookUrl", ZString);
     ("mask", ZOptional (ZArray MaskSchema));
     ("breakpoints", ZOptional (ZArray ZNumber))].

Definition LadleShotsSchema : schema :=
  ZObject
    [("ladleUrl", ZString);
     ("mask", ZOptional (ZArray MaskSchema));
     ("breakpoints", ZOptional (ZDefault (ZArray ZNumber) (VArr [])))].

Definition HistoireShotsSchema : schema :=
  ZObject
    [("histoireUrl", ZString);
     ("mask", ZOptional (ZArray MaskSchema));
     ("breakpoints", ZOptional (ZArray ZNumber))].

Definition PageShotsSchema : schema :=
  ZObject
    [("pages", ZArray PageScreenshotParameterSchema);
     ("pagesJsonUrl", ZOptional ZString);
     ("baseUrl", ZString);
     ("mask", ZOptional (ZArray MaskSchema));
     ("breakpoints", ZOptional (ZArray ZNumber))].

Definition CustomShotsSchema : schema :=
  ZObject [("currentShotsPath", ZString)].

Definition TimeoutsSchema : schema :=
  ZObject
    [("fetchStories", ZDefault ZNumber (num 30000));
     ("loadState", ZDefault ZNumber (num 30000));
     ("networkRequests", ZDefault ZNumber (num 30000))].

(** The shape of [BaseConfigSchema].  The hooks are function schemas: zod
    checks at parse time that the value is a function; the argument and
    result schemas ([StoryLikeSchema]) act only when the hook is called. *)
Definition BaseConfigShape : list (string * schema) :=
  [("browser", ZDefault (ZEnum ["chromium"; "firefox"; "webkit"]) (VStr "chromium"));
   ("storybookShots", ZOptional StorybookShotsSchema);
   ("ladleShots", ZOptional LadleShotsSchema);
   ("histoireShots", ZOptional HistoireShotsSchema);
   ("pageShots", ZOptional PageShotsSchema);
   ("customShots", ZOptional CustomShotsSchema);
   ("imagePathCurrent", ZDefault ZString (VStr ".lostpixel/current/"));
   ("breakpoints", ZDefault (ZArray ZNumber) (VArr []));
   ("shotConcurrency", ZDefault ZNumber (num 5));
   ("timeouts",
    ZDefault TimeoutsSchema
      (VObj [("fetchStories", num 30000);
             ("loadState", num 30000);
             ("networkRequests", num 30000)]));
   ("waitBeforeScreenshot", ZDefault ZNumber (num 1000));
   ("waitForFirstRequest", ZDefault ZNumber (num 1000));
   ("waitForLastRequest", ZDefault ZNumber (num 1000));
   ("threshold", ZDefault ZNumber (num 0));
   ("flakynessRetries", ZDefault ZNumber (num 0));
   ("waitBetweenFlakynessRetries", ZDefault ZNumber (num 2000));
   ("filterShot", ZOptional ZFunction);
   ("shotNameGenerator", ZOptional ZFunction);
   ("configureBrowser", ZOptional ZFunction);
   ("beforeScreenshot", ZOptional ZFunction)].

Definition BaseConfigSchema : schema := ZObject BaseConfigShape.

(** [process.env]: a variable is a string or unset. *)
Definition environment : Type := string -> option string.

Definition env_value (env : environment) (name : string) : value :=
  match env name with
  | Some s => VStr s
  | None => VUndefined
  end.

Definition MEDIA_UPLOAD_CONCURRENCY : Z := 10.

(** What the process has done when a call ends: the lines given to
    [log.process], and how the call ended. *)
Record logLine : Type :=
  mkLog { level : string; scope : string; text : string }.

Inductive ending (A : Type) : Type :=
| Returned (a : A)
| Exited (code : Z)
| Threw (error : string).

Arguments Returned {A} a.
Arguments Exited {A} code.
Arguments Threw {A} error.

Definition run (A : Type) : Type := (list logLine * ending A)%type.

Section WithEnvironment.

Variable env : environment.

Definition PlatformModeConfigShape : list (string * schema) :=
  extend BaseConfigShape
    [("lostPixelPlatform", ZDefault ZString (VStr "https://api.lost-pixel.com"));
     ("apiKey", ZString);
     ("lostPixelProjectId", ZString);
     ("ciBuildId", ZDefault ZString (env_value env "CI_BUILD_ID"));
     ("ciBuildNumber", ZDefault ZString (env_value env "CI_BUILD_NUMBER"));
     ("repository", ZDefault ZString (env_value env "REPOSITORY"));
     ("commitRefName", ZDefault ZString (env_value env "COMMIT_REF_NAME"));
     ("commitHash", ZDefault ZString (env_value env "COMMIT_HASH"));
     ("eventFilePath", ZOptional ZString);
     ("setPendingStatusCheck", ZDefault ZBoolean (VBool false))].

Definition PlatformModeConfigSchema : schema := ZObject PlatformModeConfigShape.

Definition GenerateOnlyModeConfigShape : list (string * schema) :=
  extend BaseConfigShape
    [("generateOnly", ZOptional ZBoolean);
     ("failOnDifference", ZOptional ZBoolean);
     ("imagePathBaseline", ZDefault ZString (VStr ".lostpixel/baseline/"));
     ("imagePathDifference", ZDefault ZString (VStr ".lostpixel/difference/"));
     ("compareConcurrency", ZDefault ZNumber (num 10));
     ("compareEngine", ZDefault (ZEnum ["pixelmatch"; "odiff"]) (VStr "pixelmatch"))].

Definition GenerateOnlyModeConfigSchema : schema :=
  ZObject GenerateOnlyModeConfigShape.

Definition ConfigSchema : schema :=
  ZUnion [PlatformModeConfigSchema; GenerateOnlyModeConfigSchema].

(** ['apiKey' in userConfig || 'lostPixelProjectId' in userConfig] *)
Definition isPlatformModeConfig (userConfig : obj) : bool :=
  has "apiKey" userConfig || has "lostPixelProjectId" userConfig.

Definition seg_text (s : seg) : string :=
  match s with
  | Key k => k
  | Idx i => string_of_nat i
  end.

Definition issue_line (i : issue) : logLine :=
  mkLog "error" "config"
    (join nl
       ["Configuration error:";
        "  - Path: " ++ join "." (map seg_text (path i));
        "  - Message: " ++ message i]).

Definition printConfigErrors (error : list issue) : list logLine :=
  map issue_line error.

(** The schema [parseConfig] checks [userConfig] against. *)
Definition schemaFor (userConfig : obj) : schema :=
  if isPlatformModeConfig userConfig
  then PlatformModeConfigSchema
  else GenerateOnlyModeConfigSchema.

Definition parseConfig (userConfig : obj) : run value :=
  if isPlatformModeConfig userConfig then
    match safeParse PlatformModeConfigSchema (VObj userConfig) with
    | Valid data => ([], Returned data)
    | Invalid error => (printConfigErrors error, Exited 1)
    end
  else
    match safeParse GenerateOnlyModeConfigSchema (VObj userConfig) with
    | Valid data => ([], Returned data)
    | Invalid error => (printConfigErrors error, Exited 1)
    end.

End WithEnvironment.

(** What the rewrite of the base URL needs from outside this module.
    [newUrl v] is [new URL(v)], then [url.hostname = 'localhost'], then
    [url.toString()], for whatever value [v] the constructor is given;
    [None] stands for the constructor throwing.  [callIncludes f this x] is
    the call [this.includes(x)] of a function [f] that the configuration
    itself holds as [includes]: the truthiness of what it returns, or
    [None] when it throws. *)
Record urlRuntime : Type :=
  mkRuntime {
    newUrl : value -> option string;
    callIncludes : fn -> value -> string -> option bool
  }.

(** [baseUrl.includes(urlChunk)] as a test: a string has the substring
    test, an array the membership test, an object the [includes] it holds
    if that is a function; on anything else the call throws ([None]). *)
Definition includesChunk (runtime : urlRuntime) (baseUrl : value)
    (urlChunk : string) : option bool :=
  match baseUrl with
  | VStr s => Some (includes s urlChunk)
  | VArr items =>
      Some (existsb
              (fun item =>
                 match item with
                 | VStr x => String.eqb x urlChunk
                 | _ => false
                 end)
              items)
  | VObj o =>
      match get "includes" o with
      | VFun f => callIncludes runtime f baseUrl urlChunk
      | _ => None
      end
  | _ => None
  end.

(** [chunks.some(test)]: the tests run in order up to the first that holds;
    a test that throws ends the run. *)
Fixpoint some (test : string -> option bool) (chunks : list string)
  : option bool :=
  match chunks with
  | [] => Some false
  | chunk :: rest =>
      match test chunk with
      | None => None
      | Some true => Some true
      | Some false => some test rest
      end
  end.

Section Configure.

Variable env : environment.

Variable withLocalhost : urlRuntime.

Definition urlChunks : list string := ["http://"; "https://"; "127.0.0.1"].

(** [{ ...loadedProjectConfig, generateOnly: true,
       lostPixelProjectId: undefined, apiKey: undefined }] *)
Definition forceGenerateOnly (loadedProjectConfig : obj) : obj :=
  spread loadedProjectConfig
    [("generateOnly", VBool true);
     ("lostPixelProjectId", VUndefined);
     ("apiKey", VUndefined)].

(** The rewrite of [pageShots.baseUrl]:
    [if (baseUrl && urlChunks.some(chunk => baseUrl.includes(chunk)))]
    then [baseUrl = new URL(baseUrl)] with the host name [localhost]. *)
Definition useLocalhost (localDebugConfig : obj) : ending obj :=
  match get "pageShots" localDebugConfig with
  | VObj pageShots =>
      let baseUrl := get "baseUrl" pageShots in
      if truthy baseUrl then
        match some (includesChunk withLocalhost baseUrl) urlChunks with
        | Some true =>
            match newUrl withLocalhost baseUrl with
            | Some url =>
                Returned
                  (set "pageShots" (VObj (set "baseUrl" (VStr url) pageShots))
                     localDebugConfig)
            | None => Threw "TypeError: Invalid URL"
            end
        | Some false => Returned localDebugConfig
        | None => Threw "TypeError: baseUrl.includes is not a function"
        end
      else Returned localDebugConfig
  | _ => Returned localDebugConfig
  end.

(** The [if (localDebugMode)] block. *)
Definition localDebug (loadedProjectConfig : obj) : ending obj :=
  useLocalhost
    (if isPlatformModeConfig loadedProjectConfig
     then forceGenerateOnly loadedProjectConfig
     else loadedProjectConfig).

Definition noModeDefined (c : obj) : bool :=
  negb (truthy (get "storybookShots" c))
  && negb (truthy (get "pageShots" c))
  && negb (truthy (get "ladleShots" c))
  && negb (truthy (get "histoireShots" c))
  && negb (truthy (get "customShots" c)).

Definition defaultStorybookShots : value :=
  VObj [("storybookUrl", VStr "storybook-static")].

(** Default to Storybook mode if no mode is defined. *)
Definition defaultMode (c : obj) : obj :=
  if noModeDefined c then set "storybookShots" defaultStorybookShots c else c.

(** [configure(customProjectConfig, localDebugMode)], from the point where
    [loadProjectConfig()] has resolved to [loadedProjectConfig].  The
    result returned is the value assigned to the module's [config]. *)
Definition configure (customProjectConfig : option obj)
    (localDebugMode : bool) (loadedProjectConfig : obj) : run value :=
  match customProjectConfig with
  | Some custom => parseConfig env custom
  | None =>
      match (if localDebugMode then localDebug loadedProjectConfig
             else Returned loadedProjectConfig) with
      | Returned c => parseConfig env (defaultMode c)
      | Exited code => ([], Exited code)
      | Threw error => ([], Threw error)
      end
  end.

End Configure.

(** Environments and a URL rewriter for examples. *)
Definition noEnv : environment := fun _ => None.

Definition ciEnv : environment :=
  fun name =>
    if mem name ["CI_BUILD_ID"; "CI_BUILD_NUMBER"; "REPOSITORY";
                 "COMMIT_REF_NAME"; "COMMIT_HASH"]
    then Some "ci" else None.

Definition noUrl : urlRuntime := mkRuntime (fun _ => None) (fun _ _ _ => None).

(* ------------------------------------------------------------------ *)
(** ** [loadProjectConfig] *)

(** An argument of a call of [log.process]: a text, or an error that was
    caught. *)
Inductive logItem : Type :=
| Text (s : string)
| Caught (error : string).

(** A call [log.process(level, scope, ...items)]. *)
Record logCall : Type :=
  mkCall { callLevel : string; callScope : string; callItems : list logItem }.

Definition infoCall (texts : list string) : logCall :=
  mkCall "info" "config" (map Text texts).

Definition errorCall (texts : list string) : logCall :=
  mkCall "error" "config" (map Text texts).

(** A line printed by [printConfigErrors], as the call it is. *)
Definition asCall (l : logLine) : logCall :=
  mkCall (level l) (scope l) [Text (text l)].

(** What a loader of configuration files does: it gives what the file
    exports, whatever value that is, or it throws. *)
Inductive loading : Type :=
| Loaded (exported : value)
| Failed (error : string).

Definition configExtensions : list string := ["ts"; "js"; "cjs"; "mjs"].

Definition configExtensionsString : string := join "|" configExtensions.

Section Loading.

(** [process.cwd()] and [process.env.LOST_PIXEL_CONFIG_DIR] *)
Variable cwd : string.
Variable LOST_PIXEL_CONFIG_DIR : option string.

(** [path.isAbsolute] and [path.join], of the runtime *)
Variable isAbsolute : string -> bool.
Variable pathJoin : list string -> string.

(** [existsSync], of the runtime *)
Variable existsSync : string -> bool.

(** [loadProjectConfigFile] and [loadTSProjectConfigFile] of
    [./configHelper], and [require] *)
Variable loadProjectConfigFile : string -> loading.
Variable loadTSProjectConfigFile : string -> loading.
Variable require : string -> loading.

(** [process.env.LOST_PIXEL_CONFIG_DIR ?? process.cwd()] *)
Definition configDirBase : string :=
  match LOST_PIXEL_CONFIG_DIR with
  | Some dir => dir
  | None => cwd
  end.

Definition configFileNameBase : string :=
  pathJoin
    [if isAbsolute configDirBase then "" else cwd;
     configDirBase;
     "lostpixel.config"].

(** The files that exist among [lostpixel.config.(ts|js|cjs|mjs)]. *)
Definition configFiles : list string :=
  filter existsSync
    (map (fun ext => configFileNameBase ++ "." ++ ext) configExtensions).

(** The lines logged before the search. *)
Definition loadingLines : list logCall :=
  ([infoCall ["Loading project config ..."];
    infoCall ["Current working directory:"; cwd]]
   ++ match LOST_PIXEL_CONFIG_DIR with
      | Some dir =>
          if truthy (VStr dir)
          then [infoCall ["Defined config directory:"; dir]]
          else []
      | None => []
      end
   ++ [infoCall ["Looking for config file:";
             (configFileNameBase ++ ".(" ++ configExtensionsString ++ ")")%string]])%list.

(** The fallback taken when [loadProjectConfigFile] has failed. *)
Definition loadFallback (configFile : string) : list logCall * ending value :=
  if existsSync (configFileNameBase ++ ".js") then
    match require (configFileNameBase ++ ".js") with
    | Loaded projectConfig =>
        ([infoCall ["✅ Successfully loaded configuration from:";
                configFileNameBase ++ ".js"]],
         Returned projectConfig)
    | Failed e =>
        ([errorCall ["Failed to load config file: " ++ configFile];
          mkCall "error" "config" [Caught e]],
         Exited 1)
    end
  else if existsSync (configFileNameBase ++ ".ts") then
    match loadTSProjectConfigFile configFile with
    | Loaded imported =>
        ([infoCall ["✅ Successfully loaded configuration from:";
                configFileNameBase ++ ".ts"]],
         Returned imported)
    | Failed e =>
        ([errorCall ["Failed to load config file: " ++ configFile];
          mkCall "error" "config" [Caught e]],
         Exited 1)
    end
  else
    ([errorCall ["Couldn't find project config file 'lostpixel.config.js'"]],
     Exited 1).

Definition loadProjectConfig : list logCall * ending value :=
  match configFiles with
  | [] =>
      ((loadingLines
        ++ [errorCall [("Couldn't find project config file 'lostpixel.config.("
                      ++ configExtensionsString ++ ")'")%string]])%list,
       Exited 1)
  | configFile :: others =>
      let found :=
        match others with
        | _ :: _ => infoCall ["✅ Found multiple config files, taking:"; configFile]
        | [] => infoCall ["✅ Found config file:"; configFile]
        end in
      match loadProjectConfigFile configFile with
      | Loaded imported => ((loadingLines ++ [found])%list, Returned imported)
      | Failed _ =>
          let (lines, result) := loadFallback configFile in
          ((loadingLines
            ++ [found;
                errorCall ["Loading config using ESBuild failed, using fallback option"]]
            ++ lines)%list,
           result)
      end
  end.

Variable env : environment.
Variable withLocalhost : urlRuntime.

(** [parseConfig(userConfig)] on whatever value it is called with.  The
    test ['apiKey' in userConfig] throws on a value that is not an object;
    an array or a function is an object without the two properties, so it
    is checked against the generate-only schema. *)
Definition parseConfigValue (userConfig : value) : run value :=
  match userConfig with
  | VObj config => parseConfig env config
  | VArr _ | VFun _ =>
      match safeParse GenerateOnlyModeConfigSchema userConfig with
      | Valid data => ([], Returned data)
      | Invalid issues => (printConfigErrors issues, Exited 1)
      end
  | _ => ([], Threw "TypeError: Cannot use 'in' operator to search for 'apiKey'")
  end.

(** [configure] from the point where [loadProjectConfig()] has resolved,
    on whatever value the project file exports.  On [null], [undefined] or
    another primitive the first test or assignment of a property throws; an
    array or a function has none of the properties read, and goes to
    [parseConfig] as it is, but for the [storybookShots] it is given. *)
Definition configureLoaded (localDebugMode : bool) (loadedProjectConfig : value)
  : run value :=
  match loadedProjectConfig with
  | VObj config => configure env withLocalhost None localDebugMode config
  | VArr _ | VFun _ => parseConfigValue loadedProjectConfig
  | _ => ([], Threw "TypeError")
  end.

(** [configure(customProjectConfig, localDebugMode)] from its first line:
    the project configuration is loaded only when no custom configuration
    is given ([undefined], or another falsy value). *)
Definition configureProject (customProjectConfig : value)
    (localDebugMode : bool) : list logCall * ending value :=
  if truthy customProjectConfig then
    let (lines, result) := parseConfigValue customProjectConfig in
    (map asCall lines, result)
  else
    match loadProjectConfig with
    | (lines, Returned loadedProjectConfig) =>
        let (more, result) :=
          configureLoaded localDebugMode loadedProjectConfig in
        ((lines ++ map asCall more)%list, result)
    | (lines, Exited code) => (lines, Exited code)
    | (lines, Threw e) => (lines, Threw e)
    end.

End Loading.

(* ------------------------------------------------------------------ *)
(** ** Derived definitions used in the statements *)

(** Induction on schemas, through the shapes and the alternatives. *)
Definition schema_ind (P : schema -> Prop)
    (HString : P ZString) (HNumber : P ZNumber) (HBoolean : P ZBoolean)
    (HFunction : P ZFunction)
    (HEnum : forall options, P (ZEnum options))
    (HArray : forall element, P element -> P (ZArray element))
    (HObject : forall shape, Forall (fun ks => P (snd ks)) shape -> P (ZObject shape))
    (HOptional : forall inner, P inner -> P (ZOptional inner))
    (HDefault : forall inner dflt, P inner -> P (ZDefault inner dflt))
    (HUnion : forall alternatives, Forall P alternatives -> P (ZUnion alternatives))
  : forall s, P s :=
  fix go (s : schema) : P s :=
    match s with
    | ZString => HString
    | ZNumber => HNumber
    | ZBoolean => HBoolean
    | ZFunction => HFunction
    | ZEnum options => HEnum options
    | ZArray element => HArray element (go element)
    | ZObject shape =>
        HObject shape
          ((fix fields (l : list (string * schema)) : Forall (fun ks => P (snd ks)) l :=
              match l with
              | [] => Forall_nil _
              | ks :: rest => Forall_cons ks (go (snd ks)) (fields rest)
              end) shape)
    | ZOptional inner => HOptional inner (go inner)
    | ZDefault inner dflt => HDefault inner dflt (go inner)
    | ZUnion alternatives =>
        HUnion alternatives
          ((fix alts (l : list schema) : Forall P l :=
              match l with
              | [] => Forall_nil _
              | a :: rest => Forall_cons a (go a) (alts rest)
              end) alternatives)
    end.

(** The fields [parse] computes for an object schema. *)
Definition object_fields (shape : list (string * schema)) (p : list seg)
    (o : obj) : list field :=
  map (fun ks => (fst ks, has (fst ks) o,
                  parse (snd ks) (p ++ [Key (fst ks)])%list (get (fst ks) o)))
      shape.

Definition generateOnlyKeys : list string := map fst GenerateOnlyModeConfigShape.

Definition platformKeys : list string := map fst (PlatformModeConfigShape noEnv).

(** Every field name of the two schemas. *)
Definition configKeys : list string := (platformKeys ++ generateOnlyKeys)%list.

(** The fields that enable a shot source; both schemas inherit them from
    [BaseConfigSchema]. *)
Definition sourceFields : list (string * schema) :=
  [("storybookShots", ZOptional StorybookShotsSchema);
   ("ladleShots", ZOptional LadleShotsSchema);
   ("histoireShots", ZOptional HistoireShotsSchema);
   ("pageShots", ZOptional PageShotsSchema);
   ("customShots", ZOptional CustomShotsSchema)].

(** The source families of the specification's catalog builder: the story
    catalogs (Storybook, Ladle, Histoire), the page list and the custom
    folder.  A source is enabled when its field is truthy, as in the test
    [configure] makes before defaulting to Storybook. *)
Definition storyCatalogEnabled (c : obj) : bool :=
  truthy (get "storybookShots" c)
  || truthy (get "ladleShots" c)
  || truthy (get "histoireShots" c).

Definition pageListEnabled (c : obj) : bool := truthy (get "pageShots" c).

Definition customFolderEnabled (c : obj) : bool := truthy (get "customShots" c).

Definition enabledFamilies (c : obj) : nat :=
  (if storyCatalogEnabled c then 1 else 0)
  + (if pageListEnabled c then 1 else 0)
  + (if customFolderEnabled c then 1 else 0).

(** Example configurations. *)
Definition threeFamiliesConfig : obj :=
  [("storybookShots", VObj [("storybookUrl", VStr "storybook-static")]);
   ("pageShots",
    VObj [("pages", VArr []); ("baseUrl", VStr "http://localhost:3000")]);
   ("customShots", VObj [("currentShotsPath", VStr "shots")])].

Definition platformConfig : obj :=
  [("apiKey", VStr "key");
   ("lostPixelProjectId", VStr "project");
   ("storybookShots", VObj [("storybookUrl", VStr "storybook-static")])].

(** The state of a configuration that still declares an [apiKey], holding
    [undefined]. *)
Definition apiKey_undefined (c : obj) : Prop :=
  has "apiKey" c = true /\ get "apiKey" c = VUndefined.

(* ------------------------------------------------------------------ *)
(** ** Example runtimes *)

(** A project directory holding exactly the files [files]. *)
Definition directory (files : list string) : string -> bool :=
  fun file => mem file files.

(** [path.join] on path segments without [.] and [..]: the empty segments
    are dropped. *)
Definition joinSegments (segments : list string) : string :=
  join "/" (filter (fun s => negb (String.eqb s "")) segments).

Definition neverLoads : string -> loading := fun _ => Failed "cannot load".

Definition loadsEmpty : string -> loading := fun _ => Loaded (VObj []).

(* ------------------------------------------------------------------ *)
(** ** Tables read off the schemas *)

(** The platform fields that default to an environment variable. *)
Definition ciFields : list (string * string) :=
  [("ciBuildId", "CI_BUILD_ID");
   ("ciBuildNumber", "CI_BUILD_NUMBER");
   ("repository", "REPOSITORY");
   ("commitRefName", "COMMIT_REF_NAME");
   ("commitHash", "COMMIT_HASH")].

(** The numeric settings of [BaseConfigSchema] with their defaults. *)
Definition numericDefaults : list (string * Z) :=
  [("shotConcurrency", 5%Z);
   ("waitBeforeScreenshot", 1000%Z);
   ("waitForFirstRequest", 1000%Z);
   ("waitForLastRequest", 1000%Z);
   ("threshold", 0%Z);
   ("flakynessRetries", 0%Z);
   ("waitBetweenFlakynessRetries", 2000%Z)].

(** The keys of the schema a configuration is checked against. *)
Definition keysFor (c : obj) : list string :=
  if isPlatformModeConfig c then platformKeys else generateOnlyKeys.

(** The timeout an accepted [timeouts] object [t] gives for [k]: the number
    given, or 30 seconds. *)
Definition timeoutOf (k : string) (t : obj) : Q :=
  match get k t with
  | VNum q => q
  | _ => inject_Z 30000
  end.

(** A field that must be given: its schema is not wrapped in [optional()]
    or [default()]. *)
Definition required (s : schema) : bool :=
  match s with
  | ZOptional _ | ZDefault _ _ | ZUnion _ => false
  | _ => true
  end.

Definition requiredKeys (s : schema) : list string :=
  match s with
  | ZObject shape => map fst (filter (fun ks => required (snd ks)) shape)
  | _ => []
  end.

(** The object schemas of the shots and their parts. *)
Definition shotSchemas : list schema :=
  [MaskSchema; PageScreenshotParameterSchema; StorybookShotsSchema;
   LadleShotsSchema; HistoireShotsSchema; PageShotsSchema; CustomShotsSchema].

(** A URL runtime for examples: it knows one address. *)
Definition localhost3000 : urlRuntime :=
  mkRuntime
    (fun v =>
       match v with
       | VStr u =>
           if String.eqb u "http://127.0.0.1:3000"
           then Some "http://localhost:3000/" else None
       | _ => None
       end)
    (fun _ _ _ => None).

(** Data without function values, such as a configuration without hooks. *)
Fixpoint no_functions (v : value) : bool :=
  match v with
  | VFun _ => false
  | VArr xs => forallb no_functions xs
  | VObj o => forallb (fun kv => no_functions (snd kv)) o
  | _ => true
  end.

Fixpoint distinct (l : list string) : bool :=
  match l with
  | [] => true
  | x :: rest => negb (mem x rest) && distinct rest
  end.

(** A schema without unions whose objects have distinct keys, as the two
    configuration schemas are. *)
Fixpoint plain (s : schema) : bool :=
  match s with
  | ZUnion _ => false
  | ZArray element => plain element
  | ZObject shape =>
      distinct (map fst shape) && forallb (fun ks => plain (snd ks)) shape
  | ZOptional inner | ZDefault inner _ => plain inner
  | _ => true
  end.

(** The hooks of [BaseConfigSchema]. *)
Definition hookFields : list string :=
  ["filterShot"; "shotNameGenerator"; "configureBrowser"; "beforeScreenshot"].

(** [typeof v] is ['object'] or ['function'] and [v] is not [null]: the
    values that have properties. *)
Definition isObject (v : value) : bool :=
  match v with
  | VObj _ | VArr _ | VFun _ => true
  | _ => false
  end.

(** A loader for examples: the file exports [null]. *)
Definition loadsNull : string -> loading := fun _ => Loaded VNull.

(** A generate-only configuration of pages served at 127.0.0.1, and the
    same configuration served at localhost. *)
Definition pagesAt (baseUrl : string) : obj :=
  [("threshold", num 2);
   ("pageShots", VObj [("pages", VArr []); ("baseUrl", VStr baseUrl)])].

(* ------------------------------------------------------------------ *)
(** ** The pipeline stages that read the configuration

    [src/config.ts] declares [threshold], [flakynessRetries],
    [waitBetweenFlakynessRetries], [shotConcurrency] and
    [compareConcurrency]; the stages that use them are other modules of the
    repository.  They are modelled here from the specification. *)

Module Pipeline.

(** [x < y] on numbers *)
Definition ltb (x y : Q) : bool := if Qlt_le_dec x y then true else false.

(** A count of pixels as a number. *)
Definition pixels (n : nat) : Q := inject_Z (Z.of_nat n).

Inductive status : Type := passed | failed.

(** Modelled from the spec: the threshold decision of the Comparison Engine
    (section 4.4), which is not in [src/config.ts].  "Effective limit =
    threshold < 1 ? threshold × total : threshold." *)
Definition effectiveLimit (threshold total : Q) : Q :=
  if ltb threshold 1 then (threshold * total)%Q else threshold.

(** Modelled from the spec: the status of a comparison (section 4.4), which
    is not in [src/config.ts].  "status = failed iff diffPixelCount >
    effectiveLimit; otherwise status = passed", with total = width ×
    height. *)
Definition compareStatus (threshold : Q) (width height diffPixelCount : nat)
  : status :=
  if ltb (effectiveLimit threshold (pixels (width * height)))
         (pixels diffPixelCount)
  then failed else passed.

(** What the retry controller does, in order. *)
Inductive event : Type :=
| Attempted (i : nat)
| Waited (ms : Z).

Definition is_attempt (e : event) : bool :=
  match e with
  | Attempted _ => true
  | Waited _ => false
  end.

Definition attempts (trace : list event) : nat :=
  length (filter is_attempt trace).

Definition waits (trace : list event) : list Z :=
  flat_map (fun e => match e with Waited ms => [ms] | Attempted _ => [] end) trace.

(** The result of a capture: what was done, the image used, and
    [attemptsUsed]. *)
Record captured (image : Type) : Type :=
  mkCaptured { trace : list event; used : image; attemptsUsed : nat }.

Arguments mkCaptured {image} trace used attemptsUsed.
Arguments trace {image} c.
Arguments used {image} c.
Arguments attemptsUsed {image} c.

Section Retry.
Context {image : Type}.

Variable waitBetweenFlakynessRetries : Z.

(** The [i]-th capture attempt of a target: its image, and whether the
    attempt is judged unstable.  The judgement is a policy of the capture
    code, so it is left open. *)
Variable attempt : nat -> image * bool.

(** Modelled from the spec: the Flakiness Retry Controller (section 4.3),
    which is not in [src/config.ts].  An unstable attempt is retried
    after a wait while the budget lasts; "the last attempt's result is
    used unconditionally once the retry budget is exhausted". *)
Fixpoint retry (budget i : nat) : captured image :=
  let (img, unstable) := attempt i in
  match budget with
  | O => mkCaptured [Attempted i] img (S i)
  | S rest =>
      if unstable then
        let later := retry rest (S i) in
        mkCaptured
          (Attempted i :: Waited waitBetweenFlakynessRetries :: trace later)
          (used later) (attemptsUsed later)
      else mkCaptured [Attempted i] img (S i)
  end.

(** Modelled from the spec: the contract of the Flakiness Retry Controller
    (section 4.3), which is not in [src/config.ts]: one capture attempt
    wrapped "with up to flakynessRetries additional attempts". *)
Definition captureWithRetries (flakynessRetries : nat) : captured image :=
  retry flakynessRetries 0.

(** Attempt, wait, attempt, ..., attempt: [n] waits between [n + 1]
    attempts numbered from [i]. *)
Fixpoint alternating (n i : nat) : list event :=
  match n with
  | O => [Attempted i]
  | S m => Attempted i :: Waited waitBetweenFlakynessRetries :: alternating m (S i)
  end.
End Retry.

(** The state of the two worker pools: the targets not yet taken from the
    queue, those being captured, those captured and awaiting comparison,
    those being compared, and those done. *)
Record pools : Type :=
  mkPools {
    queued : list nat;
    capturing : list nat;
    awaiting : list nat;
    comparing : list nat;
    finished : list nat
  }.

Inductive action : Type :=
| StartCapture
| FinishCapture (target : nat)
| StartCompare (target : nat)
| FinishCompare (target : nat).

Definition member (t : nat) (l : list nat) : bool := existsb (Nat.eqb t) l.

Fixpoint take_out (t : nat) (l : list nat) : list nat :=
  match l with
  | [] => []
  | x :: rest => if Nat.eqb t x then rest else x :: take_out t rest
  end.

Section Pools.
Variables shotConcurrency compareConcurrency : nat.

(** Modelled from the spec: the Capture Worker Pool and the Comparison
    Engine's pool (sections 4.2, 4.4 and 5), which are not in
    [src/config.ts].  A target takes a slot of a pool only while the pool
    is not saturated and gives it back on completion; captures complete
    in any order, and a comparison may start as soon as its capture is
    done.  [None]: the action is not possible in this state. *)
Definition step (a : action) (s : pools) : option pools :=
  match a with
  | StartCapture =>
      match queued s with
      | t :: rest =>
          if (length (capturing s) <? shotConcurrency)%nat
          then Some (mkPools rest (t :: capturing s) (awaiting s)
                       (comparing s) (finished s))
          else None
      | [] => None
      end
  | FinishCapture t =>
      if member t (capturing s)
      then Some (mkPools (queued s) (take_out t (capturing s))
                   (awaiting s ++ [t])%list (comparing s) (finished s))
      else None
  | StartCompare t =>
      if member t (awaiting s) && (length (comparing s) <? compareConcurrency)%nat
      then Some (mkPools (queued s) (capturing s) (take_out t (awaiting s))
                   (t :: comparing s) (finished s))
      else None
  | FinishCompare t =>
      if member t (comparing s)
      then Some (mkPools (queued s) (capturing s) (awaiting s)
                   (take_out t (comparing s)) (finished s ++ [t])%list)
      else None
  end.

(** Modelled from the spec: an execution of the pipeline (section 5), which
    is not in [src/config.ts]: the actions taken by the two pools, in the
    order they happen. *)
Fixpoint execute (schedule : list action) (s : pools) : option pools :=
  match schedule with
  | [] => Some s
  | a :: rest =>
      match step a s with
      | Some s' => execute rest s'
      | None => None
      end
  end.

Definition start (catalog : list nat) : pools := mkPools catalog [] [] [] [].

Definition within_bounds (s : pools) : Prop :=
  length (capturing s) <= shotConcurrency
  /\ length (comparing s) <= compareConcurrency.
End Pools.

(** An execution of three targets with two capture slots and one
    comparison slot. *)
Definition exampleSchedule : list action :=
  [StartCapture; StartCapture; FinishCapture 2; StartCapture; StartCompare 2;
   FinishCapture 1; FinishCompare 2; StartCompare 1; FinishCapture 3;
   FinishCompare 1; StartCompare 3; FinishCompare 3].

End Pipeline.

(* ------------------------------------------------------------------ *)
(** ** Properties of objects *)

Section AssocFacts.
Context {A : Type}.
Implicit Types (k : string) (v : A) (o : list (string * A)).

Lemma has_lookup k o : has k o = true <-> exists v, lookup k o = Some v.
Proof.
  induction o as [|[k' v'] rest IH]; simpl.
  - split; [discriminate | intros [v H]; discriminate].
  - destruct (String.eqb k k').
    + split; [intros _; now exists v' | reflexivity].
    + exact IH.
Qed.

Lemma has_In k o : has k o = true <-> In k (map fst o).
Proof.
  induction o as [|[k' v'] rest IH]; simpl.
  - split; [discriminate | tauto].
  - destruct (String.eqb_spec k k') as [->|Hne].
    + split; auto.
    + rewrite IH. split; [auto | intros [H|H]; congruence].
Qed.

Lemma has_false_lookup k o : has k o = false -> lookup k o = None.
Proof.
  induction o as [|[k' v'] rest IH]; simpl; [reflexivity|].
  destruct (String.eqb k k'); [discriminate | exact IH].
Qed.

Lemma lookup_set_same k v o : lookup k (set k v o) = Some v.
Proof.
  induction o as [|[k' v'] rest IH]; simpl.
  - now rewrite String.eqb_refl.
  - destruct (String.eqb k k') eqn:E; simpl.
    + now rewrite String.eqb_refl.
    + now rewrite E.
Qed.

Lemma lookup_set_other k k' v o :
  k <> k' -> lookup k (set k' v o) = lookup k o.
Proof.
  intros Hne. induction o as [|[k0 v0] rest IH]; simpl.
  - destruct (String.eqb_spec k k'); [contradiction | reflexivity].
  - destruct (String.eqb_spec k' k0) as [->|Hk]; simpl.
    + destruct (String.eqb_spec k k0); [contradiction | reflexivity].
    + destruct (String.eqb k k0); [reflexivity | exact IH].
Qed.

Lemma has_set_same k v o : has k (set k v o) = true.
Proof. apply has_lookup. exists v. apply lookup_set_same. Qed.

Lemma has_set_other k k' v o : k <> k' -> has k (set k' v o) = has k o.
Proof.
  intros Hne. induction o as [|[k0 v0] rest IH]; simpl.
  - destruct (String.eqb_spec k k'); [contradiction | reflexivity].
  - destruct (String.eqb_spec k' k0) as [->|Hk]; simpl.
    + destruct (String.eqb_spec k k0); [contradiction | reflexivity].
    + destruct (String.eqb k k0); [reflexivity | exact IH].
Qed.

(** Writing a property never removes one. *)
Lemma has_set_mono k k' v o : has k o = true -> has k (set k' v o) = true.
Proof.
  intros H. destruct (String.eqb_spec k k') as [->|Hne].
  - apply has_set_same.
  - now rewrite has_set_other.
Qed.

Lemma lookup_app_absent k o o' :
  has k o = false -> lookup k (o ++ o')%list = lookup k o'.
Proof.
  induction o as [|[k0 v0] rest IH]; simpl; [reflexivity|].
  destruct (String.eqb k k0); [discriminate | exact IH].
Qed.
End AssocFacts.

Lemma get_set_same k v (o : obj) : get k (set k v o) = v.
Proof. unfold get. now rewrite lookup_set_same. Qed.

Lemma get_set_other k k' v (o : obj) : k <> k' -> get k (set k' v o) = get k o.
Proof. intros H. unfold get. now rewrite lookup_set_other. Qed.

Lemma get_absent k (o : obj) : has k o = false -> get k o = VUndefined.
Proof. intros H. unfold get. now rewrite has_false_lookup. Qed.

(* ------------------------------------------------------------------ *)
(** ** Properties of the parsers *)

Lemma parse_object shape p o :
  parse (ZObject shape) p (VObj o) = mergeObject (object_fields shape p o).
Proof. reflexivity. Qed.

Lemma mergeObject_valid fields d :
  mergeObject fields = Valid d ->
  Forall (fun f => is_valid (snd f) = true) fields
  /\ d = VObj (flat_map field_output fields).
Proof.
  unfold mergeObject.
  destruct (forallb (fun f => is_valid (snd f)) fields) eqn:E; [|discriminate].
  intros [= <-]. split; [|reflexivity].
  apply Forall_forall. now apply forallb_forall.
Qed.

Lemma mergeObject_invalid fields errs :
  mergeObject fields = Invalid errs ->
  errs = flat_map field_issues fields
  /\ exists f, In f fields /\ is_valid (snd f) = false.
Proof.
  unfold mergeObject.
  destruct (forallb (fun f => is_valid (snd f)) fields) eqn:E; [discriminate|].
  intros [= <-]. split; [reflexivity|].
  induction fields as [|f rest IH]; simpl in E; [discriminate|].
  apply andb_false_iff in E as [E|E].
  - exists f. split; [now left | exact E].
  - destruct (IH E) as [g [Hin Hg]]. exists g. split; [now right | exact Hg].
Qed.

Lemma mergeObject_all_valid fields :
  Forall (fun f => is_valid (snd f) = true) fields ->
  mergeObject fields = Valid (VObj (flat_map field_output fields)).
Proof.
  intros H. unfold mergeObject.
  replace (forallb (fun f => is_valid (snd f)) fields) with true; [reflexivity|].
  symmetry. apply forallb_forall. now apply Forall_forall.
Qed.

Lemma mergeObject_some_invalid fields f :
  In f fields -> is_valid (snd f) = false ->
  mergeObject fields = Invalid (flat_map field_issues fields).
Proof.
  intros Hin Hf. unfold mergeObject.
  destruct (forallb (fun f => is_valid (snd f)) fields) eqn:E; [|reflexivity].
  rewrite forallb_forall in E. specialize (E f Hin). congruence.
Qed.

Section ObjectParser.
Variables (shape : list (string * schema)) (p : list seg).

(** An invalid field makes the object invalid, and its issues are among
    the object's. *)
Lemma parse_object_field_invalid o k s errs :
  In (k, s) shape ->
  parse s (p ++ [Key k])%list (get k o) = Invalid errs ->
  exists all,
    parse (ZObject shape) p (VObj o) = Invalid all /\ incl errs all.
Proof.
  intros Hin Hk. rewrite parse_object.
  set (f := (k, has k o, Invalid errs) : field).
  assert (Hf : In f (object_fields shape p o)).
  { unfold object_fields. apply in_map_iff. exists (k, s). simpl.
    rewrite Hk. auto. }
  exists (flat_map field_issues (object_fields shape p o)). split.
  - now apply (mergeObject_some_invalid _ f).
  - intros e He. apply in_flat_map. exists f. auto.
Qed.

(** A valid object has only valid fields. *)
Lemma parse_object_field_valid o d k s :
  parse (ZObject shape) p (VObj o) = Valid d ->
  In (k, s) shape ->
  exists dk, parse s (p ++ [Key k])%list (get k o) = Valid dk.
Proof.
  rewrite parse_object. intros H Hin.
  apply mergeObject_valid in H as [Hall _].
  rewrite Forall_forall in Hall.
  specialize (Hall (k, has k o, parse s (p ++ [Key k])%list (get k o))).
  simpl in Hall.
  destruct (parse s (p ++ [Key k])%list (get k o)) as [dk|errs] eqn:E.
  - now exists dk.
  - discriminate Hall. unfold object_fields. apply in_map_iff.
    exists (k, s). simpl. now rewrite E.
Qed.

(** Valid fields make a valid object. *)
Lemma parse_object_accepts o :
  (forall k s, In (k, s) shape ->
               is_valid (parse s (p ++ [Key k])%list (get k o)) = true) ->
  parse (ZObject shape) p (VObj o)
  = Valid (VObj (flat_map field_output (object_fields shape p o))).
Proof.
  intros H. rewrite parse_object. apply mergeObject_all_valid.
  apply Forall_forall. intros f Hf.
  unfold object_fields in Hf. apply in_map_iff in Hf as [[k s] [<- Hin]].
  simpl. now apply H.
Qed.

(** The parser reads the input only at the keys of the shape. *)
Lemma parse_object_ext o o' :
  (forall k, In k (map fst shape) ->
             has k o = has k o' /\ get k o = get k o') ->
  parse (ZObject shape) p (VObj o) = parse (ZObject shape) p (VObj o').
Proof.
  intros H. rewrite !parse_object. f_equal. unfold object_fields.
  apply map_ext_in. intros [k s] Hin. simpl.
  destruct (H k) as [-> ->]; [|reflexivity].
  apply in_map_iff. now exists (k, s).
Qed.
End ObjectParser.

(** The keys of the output are keys of the shape. *)
Lemma field_output_keys (fields : list field) k :
  has k (flat_map field_output fields) = true ->
  In k (map (fun f => fst (fst f)) fields).
Proof.
  induction fields as [|[[k0 b] r] rest IH]; simpl; [discriminate|].
  intros H. apply has_In in H. rewrite map_app in H.
  apply in_app_or in H as [H|H].
  - left. destruct r as [d|errs]; simpl in H; [|contradiction].
    destruct (negb (is_undefined d) || b); simpl in H; tauto.
  - right. apply IH. now apply has_In.
Qed.

Lemma parse_object_keys shape p o out k :
  parse (ZObject shape) p (VObj o) = Valid (VObj out) ->
  has k out = true -> In k (map fst shape).
Proof.
  rewrite parse_object. intros H Hk.
  apply mergeObject_valid in H as [_ [= ->]].
  apply field_output_keys in Hk. unfold object_fields in Hk.
  now rewrite map_map in Hk.
Qed.

(** Reading the output at a key of the shape gives that field's data. *)
Lemma field_output_get (F : string * schema -> field) shape k s b dk :
  (forall ks, fst (fst (F ks)) = fst ks) ->
  NoDup (map fst shape) ->
  In (k, s) shape ->
  F (k, s) = (k, b, Valid dk) ->
  get k (flat_map field_output (map F shape)) = dk.
Proof.
  intros HF. induction shape as [|[k0 s0] rest IH]; simpl; [tauto|].
  intros Hnd Hin HFk. inversion Hnd as [|? ? Hnot Hnd']; subst.
  assert (Habsent : forall l, ~ In k (map fst l) ->
            has k (flat_map field_output (map F l)) = false).
  { intros l Hl. destruct (has k _) eqn:E; [|reflexivity].
    apply field_output_keys in E. rewrite map_map in E.
    exfalso. apply Hl.
    rewrite (map_ext fst (fun x => fst (fst (F x)))); [exact E|].
    intros a. symmetry. apply HF. }
  destruct Hin as [[= -> ->]|Hin].
  - rewrite HFk. simpl.
    destruct (negb (is_undefined dk) || b) eqn:E; simpl.
    + unfold get. simpl. now rewrite String.eqb_refl.
    + apply orb_false_iff in E as [E _]. apply negb_false_iff in E.
      destruct dk; try discriminate. apply get_absent. now apply Habsent.
  - assert (Hne : k <> k0).
    { intros ->. apply Hnot. apply in_map_iff. now exists (k0, s). }
    specialize (IH Hnd' Hin HFk).
    assert (Hhead : has k (field_output (F (k0, s0))) = false).
    { destruct (has k (field_output (F (k0, s0)))) eqn:E; [|reflexivity].
      specialize (HF (k0, s0)). destruct (F (k0, s0)) as [[k1 b1] r1].
      simpl in HF. subst k1. destruct r1 as [d1|]; simpl in E; [|discriminate].
      destruct (negb (is_undefined d1) || b1); simpl in E; [|discriminate].
      destruct (String.eqb_spec k k0); [contradiction | discriminate]. }
    unfold get in *. now rewrite lookup_app_absent.
Qed.

Lemma parse_object_data shape p o d k s :
  NoDup (map fst shape) ->
  parse (ZObject shape) p (VObj o) = Valid d ->
  In (k, s) shape ->
  exists out,
    d = VObj out
    /\ parse s (p ++ [Key k])%list (get k o) = Valid (get k out).
Proof.
  intros Hnd H Hin.
  destruct (parse_object_field_valid _ _ _ _ _ _ H Hin) as [dk Hk].
  rewrite parse_object in H. apply mergeObject_valid in H as [_ ->].
  eexists. split; [reflexivity|]. rewrite Hk. f_equal. symmetry.
  unfold object_fields.
  apply (field_output_get _ shape k s (has k o) dk); auto.
  simpl. now rewrite Hk.
Qed.

Lemma mapi_from_In {A B} (f : nat -> A -> B) xs i y :
  In y (mapi_from f i xs) -> exists j x, In x xs /\ y = f j x.
Proof.
  revert i. induction xs as [|x rest IH]; simpl; intros i; [tauto|].
  intros [<-|H].
  - exists i, x. auto.
  - destruct (IH _ H) as [j [x' [Hin ->]]]. exists j, x'. auto.
Qed.

Lemma mergeArray_invalid items errs :
  mergeArray items = Invalid errs ->
  errs = flat_map issues_of items
  /\ exists r, In r items /\ is_valid r = false.
Proof.
  unfold mergeArray. destruct (forallb is_valid items) eqn:E; [discriminate|].
  intros [= <-]. split; [reflexivity|].
  induction items as [|r rest IH]; simpl in E; [discriminate|].
  apply andb_false_iff in E as [E|E].
  - exists r. split; [now left | exact E].
  - destruct (IH E) as [g [Hin Hg]]. exists g. split; [now right | exact Hg].
Qed.

(** A rejected input always comes with at least one issue. *)
Lemma parse_invalid_nonempty s :
  forall p v errs, parse s p v = Invalid errs -> errs <> [].
Proof.
  induction s as [ | | | | options | element IH | shape IH | inner IH
                 | inner dflt IH | alternatives IH ] using schema_ind;
    intros p v errs H.
  - destruct v; simpl in H; inversion H; discriminate.
  - destruct v; simpl in H; inversion H; discriminate.
  - destruct v; simpl in H; inversion H; discriminate.
  - destruct v; simpl in H; inversion H; discriminate.
  - destruct v; simpl in H; try (inversion H; discriminate).
    destruct (mem s options); inversion H; discriminate.
  - destruct v; simpl in H; try (inversion H; discriminate).
    apply mergeArray_invalid in H as [-> [r [Hin Hr]]].
    destruct (mapi_from_In _ _ _ _ Hin) as [j [x [_ Hx]]].
    destruct r as [d|e]; [discriminate|].
    symmetry in Hx. apply IH in Hx.
    intros Hnil. destruct e as [|i e']; [now apply Hx|].
    assert (In i (flat_map issues_of (mapi_from
              (fun i x => parse element (p ++ [Idx i])%list x) 0 items))).
    { apply in_flat_map. eexists. split; [exact Hin | now left]. }
    rewrite Hnil in H. contradiction.
  - destruct v; try (simpl in H; inversion H; discriminate).
    rewrite parse_object in H.
    apply mergeObject_invalid in H as [-> [f [Hin Hf]]].
    pose proof Hin as Hin'. unfold object_fields in Hin'.
    apply in_map_iff in Hin' as [[k s] [Hks Hshape]]. simpl in Hks.
    rewrite Forall_forall in IH. specialize (IH _ Hshape). simpl in IH.
    destruct (parse s (p ++ [Key k])%list (get k props)) as [d|e] eqn:E.
    { subst f. discriminate. }
    apply IH in E. destruct e as [|i e']; [now elim E|].
    intros Hnil.
    assert (In i (flat_map field_issues (object_fields shape p props))).
    { apply in_flat_map. exists f. split; [exact Hin|]. subst f. now left. }
    rewrite Hnil in H. contradiction.
  - destruct v; simpl in H; try (now apply IH in H); discriminate.
  - destruct v; simpl in H; now apply IH in H.
  - simpl in H.
    destruct (first_valid (map (fun a => parse a p v) alternatives));
      inversion H; discriminate.
Qed.

(* ------------------------------------------------------------------ *)
(** ** The shapes of the two configuration schemas *)

Ltac nodup_strings :=
  repeat (apply NoDup_cons; [simpl; intuition discriminate|]); apply NoDup_nil.

Lemma platformKeys_env env : map fst (PlatformModeConfigShape env) = platformKeys.
Proof. reflexivity. Qed.

Lemma generateOnlyKeys_NoDup : NoDup (map fst GenerateOnlyModeConfigShape).
Proof. vm_compute. nodup_strings. Qed.

Lemma platformKeys_NoDup env : NoDup (map fst (PlatformModeConfigShape env)).
Proof. rewrite platformKeys_env. vm_compute. nodup_strings. Qed.

Lemma sourceFields_base : incl sourceFields BaseConfigShape.
Proof. intros ks H. simpl in H. simpl. intuition (subst; auto 20). Qed.

Lemma base_in_generateOnly : incl BaseConfigShape GenerateOnlyModeConfigShape.
Proof. intros ks H. vm_compute in H. vm_compute. intuition (subst; auto 30). Qed.

Lemma base_in_platform env : incl BaseConfigShape (PlatformModeConfigShape env).
Proof.
  intros ks H. simpl in H. cbv -[env_value]. intuition (subst; auto 30).
Qed.

Lemma sourceFields_not_platform_key k s :
  In (k, s) sourceFields -> k <> "apiKey" /\ k <> "lostPixelProjectId".
Proof. simpl. intuition congruence. Qed.

(** The outcome of [parseConfig] in terms of the schema it selects. *)
Lemma parseConfig_schemaFor env c :
  parseConfig env c
  = match safeParse (schemaFor env c) (VObj c) with
    | Valid data => ([], Returned data)
    | Invalid error => (printConfigErrors error, Exited 1)
    end.
Proof. unfold parseConfig, schemaFor. now destruct (isPlatformModeConfig c). Qed.

Lemma schemaFor_shape env c :
  exists shape,
    schemaFor env c = ZObject shape
    /\ incl BaseConfigShape shape
    /\ NoDup (map fst shape)
    /\ (shape = PlatformModeConfigShape env \/ shape = GenerateOnlyModeConfigShape).
Proof.
  unfold schemaFor. destruct (isPlatformModeConfig c).
  - exists (PlatformModeConfigShape env).
    repeat split; auto using base_in_platform, platformKeys_NoDup.
  - exists GenerateOnlyModeConfigShape.
    repeat split; auto using base_in_generateOnly, generateOnlyKeys_NoDup.
Qed.

Lemma parseConfig_returned env c log d :
  parseConfig env c = (log, Returned d) ->
  log = [] /\ safeParse (schemaFor env c) (VObj c) = Valid d.
Proof.
  rewrite parseConfig_schemaFor.
  destruct (safeParse (schemaFor env c) (VObj c)); intros [= <- <-]; auto.
Qed.

(* ------------------------------------------------------------------ *)
(** ** Mode selection and error reporting *)

(** C9. [isPlatformModeConfig] holds of an object exactly when ['apiKey'] or
    ['lostPixelProjectId'] is one of its properties; [parseConfig] validates
    against the platform-mode schema exactly then, and against the
    generate-only schema otherwise; a configuration that carries an
    [apiKey] but no [lostPixelProjectId] is therefore checked as a platform
    configuration and rejected for the missing field. *)
Theorem parseConfig_selects_schema env (userConfig : obj) :
  (isPlatformModeConfig userConfig = true
   <-> In "apiKey" (map fst userConfig)
       \/ In "lostPixelProjectId" (map fst userConfig))
  /\ (isPlatformModeConfig userConfig = true ->
      parseConfig env userConfig
      = match safeParse (PlatformModeConfigSchema env) (VObj userConfig) with
        | Valid data => ([], Returned data)
        | Invalid error => (printConfigErrors error, Exited 1)
        end)
  /\ (isPlatformModeConfig userConfig = false ->
      parseConfig env userConfig
      = match safeParse GenerateOnlyModeConfigSchema (VObj userConfig) with
        | Valid data => ([], Returned data)
        | Invalid error => (printConfigErrors error, Exited 1)
        end)
  /\ (In "apiKey" (map fst userConfig) ->
      ~ In "lostPixelProjectId" (map fst userConfig) ->
      exists error,
        safeParse (PlatformModeConfigSchema env) (VObj userConfig) = Invalid error
        /\ parseConfig env userConfig = (printConfigErrors error, Exited 1)
        /\ In (mkIssue [Key "lostPixelProjectId"] "Required") error).
Proof.
  assert (Hiff : isPlatformModeConfig userConfig = true
                 <-> In "apiKey" (map fst userConfig)
                     \/ In "lostPixelProjectId" (map fst userConfig)).
  { unfold isPlatformModeConfig. rewrite orb_true_iff, !has_In. tauto. }
  split; [exact Hiff|]. split; [|split].
  - intros H. unfold parseConfig. now rewrite H.
  - intros H. unfold parseConfig. now rewrite H.
  - intros Hkey Hnot.
    assert (Hmode : isPlatformModeConfig userConfig = true) by (apply Hiff; auto).
    assert (Habsent : get "lostPixelProjectId" userConfig = VUndefined).
    { apply get_absent. destruct (has "lostPixelProjectId" userConfig) eqn:E;
        [|reflexivity]. apply has_In in E. contradiction. }
    destruct (parse_object_field_invalid (PlatformModeConfigShape env) []
                userConfig "lostPixelProjectId" ZString
                [mkIssue [Key "lostPixelProjectId"] "Required"])
      as [error [Herr Hincl]].
    + cbv -[env_value]. auto 40.
    + rewrite Habsent. reflexivity.
    + exists error. split; [exact Herr|]. split.
      * unfold parseConfig. rewrite Hmode. unfold safeParse.
        unfold PlatformModeConfigSchema. now rewrite Herr.
      * apply Hincl. now left.
Qed.

Lemma parseConfig_selects_schema_witness :
  exists error,
    safeParse (PlatformModeConfigSchema ciEnv) (VObj [("apiKey", VStr "key")])
    = Invalid error
    /\ parseConfig ciEnv [("apiKey", VStr "key")]
       = (printConfigErrors error, Exited 1)
    /\ In (mkIssue [Key "lostPixelProjectId"] "Required") error.
Proof.
  destruct (parseConfig_selects_schema ciEnv [("apiKey", VStr "key")])
    as [_ [_ [_ H]]].
  apply H; simpl; intuition discriminate.
Defined.

(** C5. When the configuration fails validation against the schema chosen
    for it, [parseConfig] prints one line per issue, in order, each naming
    the issue's path (joined with dots) and its message, and then ends the
    process with exit code 1; there is at least one such line; and
    [parseConfig] returns a value only when validation succeeded. *)
Theorem parseConfig_reports_every_issue env (userConfig : obj) error :
  safeParse (schemaFor env userConfig) (VObj userConfig) = Invalid error ->
  parseConfig env userConfig = (printConfigErrors error, Exited 1)
  /\ error <> []
  /\ Forall2
       (fun issue line =>
          level line = "error"
          /\ scope line = "config"
          /\ text line
             = "Configuration error:" ++ nl
               ++ "  - Path: " ++ join "." (map seg_text (path issue)) ++ nl
               ++ "  - Message: " ++ message issue)
       error (fst (parseConfig env userConfig))
  /\ (forall log data, parseConfig env userConfig <> (log, Returned data)).
Proof.
  intros H.
  assert (Hrun : parseConfig env userConfig = (printConfigErrors error, Exited 1)).
  { rewrite parseConfig_schemaFor. now rewrite H. }
  split; [exact Hrun|]. split; [|split].
  - eapply parse_invalid_nonempty. exact H.
  - rewrite Hrun. simpl. clear. induction error as [|i rest IH]; simpl.
    + constructor.
    + constructor; [|exact IH]. repeat split.
  - intros log data. rewrite Hrun. discriminate.
Qed.

Lemma parseConfig_reports_every_issue_witness :
  parseConfig noEnv [("shotConcurrency", VStr "five"); ("compareEngine", VStr "exact")]
  = ([mkLog "error" "config"
        ("Configuration error:" ++ nl
           ++ "  - Path: shotConcurrency" ++ nl
           ++ "  - Message: Expected number, received string");
      mkLog "error" "config"
        ("Configuration error:" ++ nl
           ++ "  - Path: compareEngine" ++ nl
           ++ "  - Message: Invalid enum value. Expected 'pixelmatch' | 'odiff', received 'exact'")],
     Exited 1).
Proof.
  refine (proj1 (parseConfig_reports_every_issue noEnv
            [("shotConcurrency", VStr "five"); ("compareEngine", VStr "exact")]
            [mkIssue [Key "shotConcurrency"] "Expected number, received string";
             mkIssue [Key "compareEngine"]
               "Invalid enum value. Expected 'pixelmatch' | 'odiff', received 'exact'"]
            _)).
  vm_compute. reflexivity.
Defined.

(* ------------------------------------------------------------------ *)
(** ** The comparison engine and the concurrency settings *)

Lemma compareEngine_field :
  In ("compareEngine",
      ZDefault (ZEnum ["pixelmatch"; "odiff"]) (VStr "pixelmatch"))
     GenerateOnlyModeConfigShape.
Proof. vm_compute. auto 40. Qed.

Lemma isPlatformModeConfig_set k v c :
  k <> "apiKey" -> k <> "lostPixelProjectId" ->
  isPlatformModeConfig (set k v c) = isPlatformModeConfig c.
Proof.
  intros H1 H2. unfold isPlatformModeConfig.
  rewrite !has_set_other; auto.
Qed.

(** The platform schema does not declare [compareEngine]. *)
Lemma compareEngine_not_platform_key : ~ In "compareEngine" platformKeys.
Proof. vm_compute. intuition discriminate. Qed.

(** C7, as the code has it.  The comparison engine is selected in
    generate-only mode only.  The [compareEngine] field of the
    generate-only schema accepts ['pixelmatch'] and ['odiff'] and nothing
    else; left unspecified it becomes ['pixelmatch']; a configuration
    holding any other value there is rejected with an issue at
    [compareEngine], and [parseConfig] ends such a generate-only
    configuration with exit code 1.  The platform schema declares no
    [compareEngine]: on a platform configuration the property is not read,
    whatever it holds, and the parsed configuration has none. *)
Theorem compareEngine_two_variants (userConfig : obj) :
  let compareEngine := ZDefault (ZEnum ["pixelmatch"; "odiff"]) (VStr "pixelmatch") in
  let given := get "compareEngine" userConfig in
  In ("compareEngine", compareEngine) GenerateOnlyModeConfigShape
  /\ (forall p v,
        is_valid (parse compareEngine p v) = true
        <-> v = VUndefined \/ v = VStr "pixelmatch" \/ v = VStr "odiff")
  /\ (forall p, parse compareEngine p VUndefined = Valid (VStr "pixelmatch"))
  /\ (forall data,
        safeParse GenerateOnlyModeConfigSchema (VObj userConfig) = Valid data ->
        exists out,
          data = VObj out
          /\ (get "compareEngine" out = VStr "pixelmatch"
              \/ get "compareEngine" out = VStr "odiff")
          /\ (given = VUndefined -> get "compareEngine" out = VStr "pixelmatch")
          /\ (given <> VUndefined -> get "compareEngine" out = given))
  /\ (given <> VUndefined ->
      given <> VStr "pixelmatch" ->
      given <> VStr "odiff" ->
      exists error,
        safeParse GenerateOnlyModeConfigSchema (VObj userConfig) = Invalid error
        /\ (exists issue, In issue error /\ path issue = [Key "compareEngine"])
        /\ (isPlatformModeConfig userConfig = false ->
            forall env,
              parseConfig env userConfig = (printConfigErrors error, Exited 1)))
  /\ (isPlatformModeConfig userConfig = true ->
      forall env,
        (forall v,
           parseConfig env (set "compareEngine" v userConfig)
           = parseConfig env userConfig)
        /\ (forall log out,
              parseConfig env userConfig = (log, Returned (VObj out)) ->
              has "compareEngine" out = false)).
Proof.
  intros compareEngine given.
  assert (Hfield : forall p v,
            is_valid (parse compareEngine p v) = true
            <-> v = VUndefined \/ v = VStr "pixelmatch" \/ v = VStr "odiff").
  { intros p v. destruct v; simpl;
      try (split; [discriminate | intuition discriminate]).
    - split; auto.
    - unfold mem. simpl.
      destruct (String.eqb_spec s "pixelmatch") as [->|H1]; simpl.
      { split; auto. }
      destruct (String.eqb_spec s "odiff") as [->|H2]; simpl.
      { split; auto. }
      split; [discriminate | intuition congruence]. }
  split; [exact compareEngine_field|]. split; [exact Hfield|].
  split; [reflexivity|]. split; [|split].
  - intros data H.
    destruct (parse_object_data _ _ _ _ _ _ generateOnlyKeys_NoDup H
                compareEngine_field) as [out [-> Hout]].
    exists out. split; [reflexivity|].
    remember (get "compareEngine" out) as result eqn:Hres.
    assert (Hout' : parse compareEngine [Key "compareEngine"] given = Valid result)
      by exact Hout.
    clear Hout Hres.
    assert (Hv : is_valid (parse compareEngine [Key "compareEngine"] given) = true)
      by now rewrite Hout'.
    apply Hfield in Hv. destruct Hv as [Hv|[Hv|Hv]]; rewrite Hv in Hout';
      simpl in Hout'; injection Hout' as <-; rewrite Hv;
      repeat split; auto; intros; congruence.
  - intros Hu Hp Ho.
    destruct (parse compareEngine [Key "compareEngine"] given) as [d|errs] eqn:E.
    { assert (Hv : is_valid (parse compareEngine [Key "compareEngine"] given) = true)
        by now rewrite E.
      apply Hfield in Hv. tauto. }
    destruct (parse_object_field_invalid GenerateOnlyModeConfigShape []
                userConfig _ _ errs compareEngine_field E) as [error [Herr Hincl]].
    exists error. split; [exact Herr|]. split.
    + assert (Hne : errs <> []) by (eapply parse_invalid_nonempty; exact E).
      destruct errs as [|i rest]; [congruence|].
      exists i. split; [apply Hincl; now left|].
      clear - E Hu. unfold compareEngine in E. clearbody given.
      destruct given; simpl in E; try (injection E as <- _; reflexivity).
      * congruence.
      * match type of E with
        | context [if ?c then _ else _] => destruct c
        end; [discriminate|].
        injection E as <- _. reflexivity.
    + intros Hmode env. unfold parseConfig. rewrite Hmode.
      unfold safeParse, GenerateOnlyModeConfigSchema. now rewrite Herr.
  - intros Hmode env. split.
    + intros v.
      assert (Hset : isPlatformModeConfig (set "compareEngine" v userConfig) = true).
      { rewrite isPlatformModeConfig_set; [exact Hmode | discriminate..]. }
      unfold parseConfig. rewrite Hset, Hmode.
      unfold safeParse, PlatformModeConfigSchema.
      rewrite (parse_object_ext _ _ (set "compareEngine" v userConfig) userConfig);
        [reflexivity|].
      intros k Hin. rewrite platformKeys_env in Hin.
      assert (k <> "compareEngine").
      { intros ->. now apply compareEngine_not_platform_key. }
      split; [now apply has_set_other | now apply get_set_other].
    + intros log out H. unfold parseConfig in H. rewrite Hmode in H.
      unfold safeParse, PlatformModeConfigSchema in H.
      destruct (parse (ZObject (PlatformModeConfigShape env)) [] (VObj userConfig))
        as [d|errs] eqn:E; [|discriminate].
      injection H as _ ->.
      destruct (has "compareEngine" out) eqn:Ehas; [|reflexivity].
      apply (parse_object_keys _ _ _ _ _ E) in Ehas.
      rewrite platformKeys_env in Ehas.
      now apply compareEngine_not_platform_key in Ehas.
Qed.

Lemma compareEngine_two_variants_witness :
  exists error,
    safeParse GenerateOnlyModeConfigSchema (VObj [("compareEngine", VStr "exact")])
    = Invalid error
    /\ (exists issue, In issue error /\ path issue = [Key "compareEngine"])
    /\ (isPlatformModeConfig [("compareEngine", VStr "exact")] = false ->
        forall env,
          parseConfig env [("compareEngine", VStr "exact")]
          = (printConfigErrors error, Exited 1)).
Proof.
  destruct (compareEngine_two_variants [("compareEngine", VStr "exact")])
    as [_ [_ [_ [_ [H _]]]]].
  apply H; vm_compute; discriminate.
Defined.

(** C7, as stated, fails: a platform configuration whose [compareEngine] is
    neither ['pixelmatch'] nor ['odiff'] is accepted by [parseConfig], and
    a platform configuration that leaves it unspecified gets no default;
    the parsed configuration has no [compareEngine] either way. *)
Lemma platform_compareEngine_not_rejected :
  isPlatformModeConfig (set "compareEngine" (VStr "exact") platformConfig) = true
  /\ (exists out,
        parseConfig ciEnv (set "compareEngine" (VStr "exact") platformConfig)
        = ([], Returned (VObj out))
        /\ has "compareEngine" out = false)
  /\ (exists out,
        parseConfig ciEnv platformConfig = ([], Returned (VObj out))
        /\ get "compareEngine" out = VUndefined).
Proof.
  split; [reflexivity|].
  split; eexists; split; vm_compute; reflexivity.
Qed.

(** What [parseConfig] makes of a configuration that sets nothing. *)
Example default_configuration :
  exists out,
    parseConfig noEnv [] = ([], Returned (VObj out))
    /\ get "threshold" out = num 0
    /\ get "flakynessRetries" out = num 0
    /\ get "waitBetweenFlakynessRetries" out = num 2000
    /\ get "shotConcurrency" out = num 5
    /\ get "compareConcurrency" out = num 10
    /\ get "compareEngine" out = VStr "pixelmatch".
Proof. eexists. repeat split; vm_compute; reflexivity. Qed.

(** A property that neither schema declares has no effect on the outcome. *)
Lemma parseConfig_ignores_undeclared env k v c :
  ~ In k configKeys ->
  parseConfig env (set k v c) = parseConfig env c.
Proof.
  intros Hk. unfold configKeys in Hk.
  assert (Hp : ~ In k platformKeys) by (intros H; apply Hk, in_or_app; auto).
  assert (Hg : ~ In k generateOnlyKeys) by (intros H; apply Hk, in_or_app; auto).
  assert (Hmode : isPlatformModeConfig (set k v c) = isPlatformModeConfig c).
  { apply isPlatformModeConfig_set; intros ->; apply Hp; vm_compute; auto 40. }
  unfold parseConfig. rewrite Hmode. unfold safeParse.
  destruct (isPlatformModeConfig c).
  - unfold PlatformModeConfigSchema.
    rewrite (parse_object_ext _ _ (set k v c) c); [reflexivity|].
    intros k' Hin. rewrite platformKeys_env in Hin.
    assert (k' <> k) by congruence.
    split; [now apply has_set_other | now apply get_set_other].
  - unfold GenerateOnlyModeConfigSchema.
    rewrite (parse_object_ext _ _ (set k v c) c); [reflexivity|].
    intros k' Hin. assert (k' <> k) by (intros ->; now apply Hg).
    split; [now apply has_set_other | now apply get_set_other].
Qed.

(** C8. The upload concurrency is the constant 10.  No field of either
    schema sets it: the only fields with [Concurrency] in their name are
    [shotConcurrency] and [compareConcurrency], a parsed configuration
    holds declared fields only, and a property that is not declared (such
    as one named after the upload concurrency) changes nothing of what
    [parseConfig] does. *)
Theorem upload_concurrency_is_fixed :
  MEDIA_UPLOAD_CONCURRENCY = 10%Z
  /\ (forall k, In k configKeys -> includes k "Concurrency" = true ->
                k = "shotConcurrency" \/ k = "compareConcurrency")
  /\ (forall env userConfig log data,
        parseConfig env userConfig = (log, Returned data) ->
        exists out, data = VObj out
                    /\ forall k, has k out = true -> In k configKeys)
  /\ (forall env userConfig k v,
        ~ In k configKeys ->
        parseConfig env (set k v userConfig) = parseConfig env userConfig).
Proof.
  split; [reflexivity|]. split; [|split].
  - intros k Hin. vm_compute in Hin.
    repeat (destruct Hin as [<-|Hin];
            [vm_compute; first [discriminate | auto]|]).
    contradiction.
  - intros env c log data H.
    apply parseConfig_returned in H as [_ H].
    destruct (schemaFor_shape env c) as [shape [Hs [_ [_ Hshape]]]].
    rewrite Hs in H. unfold safeParse in H.
    pose proof H as H'. rewrite parse_object in H'.
    apply mergeObject_valid in H' as [_ ->].
    eexists. split; [reflexivity|]. intros k Hk.
    apply (parse_object_keys _ _ _ _ _ H) in Hk.
    unfold configKeys. apply in_or_app.
    destruct Hshape as [->| ->]; [left | right; exact Hk].
    now rewrite platformKeys_env in Hk.
  - intros. now apply parseConfig_ignores_undeclared.
Qed.

Lemma upload_concurrency_is_fixed_witness :
  parseConfig noEnv (set "uploadConcurrency" (num 99) [("threshold", num 2)])
  = parseConfig noEnv [("threshold", num 2)].
Proof.
  apply (proj2 (proj2 (proj2 upload_concurrency_is_fixed))).
  vm_compute. intuition discriminate.
Defined.

(* ------------------------------------------------------------------ *)
(** ** The shot sources *)

Lemma shape_functional (shape : list (string * schema)) k s s' :
  NoDup (map fst shape) -> In (k, s) shape -> In (k, s') shape -> s = s'.
Proof.
  induction shape as [|[k0 s0] rest IH]; simpl; [tauto|].
  intros Hnd H1 H2. inversion Hnd as [|? ? Hnot Hnd']; subst.
  assert (Hkey : forall x, In (k0, x) rest -> False).
  { intros x Hx. apply Hnot. apply in_map_iff. now exists (k0, x). }
  destruct H1 as [E1|H1], H2 as [E2|H2].
  - congruence.
  - injection E1 as -> ->. elim (Hkey _ H2).
  - injection E2 as -> ->. elim (Hkey _ H1).
  - now apply IH.
Qed.

Lemma schemaFor_set env k v c :
  k <> "apiKey" -> k <> "lostPixelProjectId" ->
  schemaFor env (set k v c) = schemaFor env c.
Proof.
  intros H1 H2. unfold schemaFor. now rewrite isPlatformModeConfig_set.
Qed.

(** C6, as the code has it.  The five source fields are optional and
    independent of each other: when a configuration is accepted, giving one
    of the source fields any value that is valid for that source keeps it
    accepted, whatever other sources it enables, and the parsed
    configuration carries the parsed source. *)
Theorem source_fields_are_independent env (userConfig : obj) k s v :
  In (k, s) sourceFields ->
  is_valid (parse s [Key k] v) = true ->
  (exists data, parseConfig env userConfig = ([], Returned data)) ->
  exists out,
    parseConfig env (set k v userConfig) = ([], Returned (VObj out))
    /\ parse s [Key k] v = Valid (get k out).
Proof.
  intros Hsrc Hv [data H].
  apply parseConfig_returned in H as [_ H].
  destruct (sourceFields_not_platform_key _ _ Hsrc) as [Hk1 Hk2].
  destruct (schemaFor_shape env userConfig) as [shape [Hs [Hbase [Hnd _]]]].
  assert (Hin : In (k, s) shape) by now apply Hbase, sourceFields_base.
  rewrite Hs in H. unfold safeParse in H.
  assert (Hall : forall k' s', In (k', s') shape ->
            is_valid (parse s' ([] ++ [Key k'])%list (get k' (set k v userConfig)))
            = true).
  { intros k' s' Hin'. destruct (String.eqb_spec k' k) as [->|Hne].
    - rewrite get_set_same.
      now rewrite (shape_functional shape k s' s Hnd Hin' Hin).
    - rewrite get_set_other by exact Hne.
      destruct (parse_object_field_valid _ _ _ _ _ _ H Hin') as [dk ->].
      reflexivity. }
  pose proof (parse_object_accepts shape [] (set k v userConfig) Hall) as Hacc.
  destruct (parse_object_data _ _ _ _ _ _ Hnd Hacc Hin) as [out [Hout Hdata]].
  exists out. split.
  - rewrite parseConfig_schemaFor, schemaFor_set, Hs by assumption.
    unfold safeParse. now rewrite Hacc, Hout.
  - rewrite get_set_same in Hdata. exact Hdata.
Qed.

Lemma source_fields_are_independent_witness :
  exists out,
    parseConfig noEnv
      (set "customShots" (VObj [("currentShotsPath", VStr "shots")])
         [("storybookShots", VObj [("storybookUrl", VStr "storybook-static")])])
    = ([], Returned (VObj out))
    /\ parse (ZOptional CustomShotsSchema) [Key "customShots"]
         (VObj [("currentShotsPath", VStr "shots")])
       = Valid (get "customShots" out).
Proof.
  apply (source_fields_are_independent noEnv).
  - simpl. auto 10.
  - reflexivity.
  - eexists. vm_compute. reflexivity.
Defined.

(** C6, as stated, fails: a configuration that enables a story catalog, a
    page list and a custom folder at once is accepted, by [parseConfig] and
    by [ConfigSchema]. *)
Lemma three_families_accepted :
  (exists data,
     parseConfig noEnv threeFamiliesConfig = ([], Returned data)
     /\ safeParse (ConfigSchema noEnv) (VObj threeFamiliesConfig) = Valid data)
  /\ enabledFamilies threeFamiliesConfig = 3
  /\ ~ enabledFamilies threeFamiliesConfig <= 1.
Proof.
  split; [|split].
  - eexists. split; vm_compute; reflexivity.
  - reflexivity.
  - vm_compute. lia.
Qed.

(* ------------------------------------------------------------------ *)
(** ** [configure] *)

Lemma forceGenerateOnly_unfold c :
  forceGenerateOnly c
  = set "apiKey" VUndefined
      (set "lostPixelProjectId" VUndefined (set "generateOnly" (VBool true) c)).
Proof. reflexivity. Qed.

(** The forced configuration differs from the loaded one at three
    properties only. *)
Lemma forceGenerateOnly_frame c k :
  k <> "generateOnly" -> k <> "lostPixelProjectId" -> k <> "apiKey" ->
  get k (forceGenerateOnly c) = get k c
  /\ has k (forceGenerateOnly c) = has k c.
Proof.
  intros H1 H2 H3. rewrite forceGenerateOnly_unfold.
  now rewrite !get_set_other, !has_set_other.
Qed.

(** Both platform properties are still properties of the forced
    configuration; they hold [undefined]. *)
Lemma forceGenerateOnly_keeps_keys c :
  has "apiKey" (forceGenerateOnly c) = true
  /\ has "lostPixelProjectId" (forceGenerateOnly c) = true
  /\ get "apiKey" (forceGenerateOnly c) = VUndefined
  /\ get "lostPixelProjectId" (forceGenerateOnly c) = VUndefined
  /\ get "generateOnly" (forceGenerateOnly c) = VBool true.
Proof.
  rewrite forceGenerateOnly_unfold. repeat split.
  - apply has_set_same.
  - rewrite has_set_other by discriminate. apply has_set_same.
  - apply get_set_same.
  - rewrite get_set_other by discriminate. apply get_set_same.
  - rewrite !get_set_other by discriminate. apply get_set_same.
Qed.

Lemma noModeDefined_ext c c' :
  (forall k s, In (k, s) sourceFields -> get k c = get k c') ->
  noModeDefined c = noModeDefined c'.
Proof.
  intros H. unfold noModeDefined.
  rewrite (H "storybookShots" (ZOptional StorybookShotsSchema)),
    (H "pageShots" (ZOptional PageShotsSchema)),
    (H "ladleShots" (ZOptional LadleShotsSchema)),
    (H "histoireShots" (ZOptional HistoireShotsSchema)),
    (H "customShots" (ZOptional CustomShotsSchema)); simpl; auto 10.
Qed.

Lemma noModeDefined_pageShots c :
  noModeDefined c = true -> truthy (get "pageShots" c) = false.
Proof.
  unfold noModeDefined. rewrite !andb_true_iff, !negb_true_iff. tauto.
Qed.

(** Without a truthy [pageShots] there is no URL to rewrite. *)
Lemma useLocalhost_no_pageShots url c :
  truthy (get "pageShots" c) = false -> useLocalhost url c = Returned c.
Proof.
  intros H. unfold useLocalhost.
  destruct (get "pageShots" c); try reflexivity. discriminate.
Qed.

(** C1, as the code has it.  When the loaded configuration enables no shot
    source, [configure] raises no error for that: it sets [storybookShots]
    to [{ storybookUrl: 'storybook-static' }] and validates the result, and
    whenever it then succeeds the installed configuration has exactly that
    [storybookShots]. *)
Theorem configure_defaults_to_storybook env url localDebugMode (loaded : obj) :
  noModeDefined loaded = true ->
  let c := if localDebugMode && isPlatformModeConfig loaded
           then forceGenerateOnly loaded else loaded in
  configure env url None localDebugMode loaded
  = parseConfig env (set "storybookShots" defaultStorybookShots c)
  /\ (forall log data,
        configure env url None localDebugMode loaded = (log, Returned data) ->
        exists out,
          data = VObj out /\ get "storybookShots" out = defaultStorybookShots).
Proof.
  intros Hnone c.
  assert (Hsame : forall k s, In (k, s) sourceFields -> get k c = get k loaded).
  { intros k s Hin. unfold c.
    destruct (localDebugMode && isPlatformModeConfig loaded); [|reflexivity].
    apply forceGenerateOnly_frame; simpl in Hin; intuition congruence. }
  assert (Hc : noModeDefined c = true).
  { now rewrite (noModeDefined_ext c loaded Hsame). }
  assert (Hrun : configure env url None localDebugMode loaded
                 = parseConfig env (set "storybookShots" defaultStorybookShots c)).
  { unfold configure. destruct localDebugMode; simpl in c.
    - unfold localDebug. fold c.
      rewrite useLocalhost_no_pageShots by now apply noModeDefined_pageShots.
      unfold defaultMode. now rewrite Hc.
    - unfold defaultMode. now rewrite Hnone. }
  split; [exact Hrun|].
  intros log data H. rewrite Hrun in H.
  apply parseConfig_returned in H as [_ H].
  set (c' := set "storybookShots" defaultStorybookShots c) in *.
  destruct (schemaFor_shape env c') as [shape [Hs [Hbase [Hnd _]]]].
  rewrite Hs in H. unfold safeParse in H.
  assert (Hin : In ("storybookShots", ZOptional StorybookShotsSchema) shape).
  { apply Hbase, sourceFields_base. simpl. auto. }
  destruct (parse_object_data _ _ _ _ _ _ Hnd H Hin) as [out [-> Hdata]].
  exists out. split; [reflexivity|].
  unfold c' in Hdata. rewrite get_set_same in Hdata.
  remember (get "storybookShots" out) as result eqn:Hres. clear Hres.
  simpl in Hdata. now injection Hdata as <-.
Qed.

Lemma configure_defaults_to_storybook_witness :
  configure noEnv noUrl None false [("threshold", num 0)]
  = parseConfig noEnv
      (set "storybookShots" defaultStorybookShots [("threshold", num 0)]).
Proof.
  apply (configure_defaults_to_storybook noEnv noUrl false [("threshold", num 0)]).
  reflexivity.
Defined.

(** C1, as stated, fails: the empty configuration enables no source, and
    [configure] installs a configuration instead of ending the process. *)
Lemma configure_without_source_returns :
  noModeDefined [] = true
  /\ enabledFamilies [] = 0
  /\ exists out,
       configure noEnv noUrl None false [] = ([], Returned (VObj out))
       /\ get "storybookShots" out = defaultStorybookShots.
Proof.
  split; [reflexivity|]. split; [reflexivity|].
  eexists. split; vm_compute; reflexivity.
Qed.

(* ------------------------------------------------------------------ *)
(** ** Local debug mode *)

Lemma apiKey_undefined_set k v c :
  k <> "apiKey" -> apiKey_undefined c -> apiKey_undefined (set k v c).
Proof.
  intros Hk [H1 H2]. split.
  - now apply has_set_mono.
  - rewrite get_set_other; auto.
Qed.

Lemma apiKey_undefined_rejected env c :
  apiKey_undefined c ->
  exists error,
    parseConfig env c = (printConfigErrors error, Exited 1)
    /\ In (mkIssue [Key "apiKey"] "Required") error.
Proof.
  intros [Hhas Hget].
  assert (Hmode : isPlatformModeConfig c = true).
  { unfold isPlatformModeConfig. now rewrite Hhas. }
  destruct (parse_object_field_invalid (PlatformModeConfigShape env) [] c
              "apiKey" ZString [mkIssue [Key "apiKey"] "Required"])
    as [error [Herr Hincl]].
  - cbv -[env_value]. auto 40.
  - rewrite Hget. reflexivity.
  - exists error. split.
    + unfold parseConfig. rewrite Hmode. unfold safeParse.
      unfold PlatformModeConfigSchema. now rewrite Herr.
    + apply Hincl. now left.
Qed.

Lemma useLocalhost_cases url c :
  (exists e, useLocalhost url c = Threw e)
  \/ useLocalhost url c = Returned c
  \/ exists v, useLocalhost url c = Returned (set "pageShots" v c).
Proof.
  unfold useLocalhost.
  destruct (get "pageShots" c) as [ | | | | | |items|pageShots|f]; auto.
  destruct (truthy (get "baseUrl" pageShots)); auto.
  destruct (some (includesChunk url (get "baseUrl" pageShots)) urlChunks)
    as [[|]|]; eauto.
  destruct (newUrl url (get "baseUrl" pageShots)); eauto.
Qed.

(** In local debug mode a platform configuration is never installed: the
    forced configuration still counts as a platform configuration and fails
    validation at [apiKey] (or the URL rewrite throws before that). *)
Lemma localDebug_platform_never_installed env url (loaded : obj) :
  isPlatformModeConfig loaded = true ->
  (exists error,
     configure env url None true loaded = (printConfigErrors error, Exited 1)
     /\ In (mkIssue [Key "apiKey"] "Required") error)
  \/ (exists e, configure env url None true loaded = ([], Threw e)).
Proof.
  intros Hmode. unfold configure, localDebug. rewrite Hmode.
  assert (Hforced : apiKey_undefined (forceGenerateOnly loaded)).
  { destruct (forceGenerateOnly_keeps_keys loaded) as [H1 [_ [H2 _]]].
    now split. }
  assert (Hdefault : forall c, apiKey_undefined c -> apiKey_undefined (defaultMode c)).
  { intros c Hc. unfold defaultMode. destruct (noModeDefined c); [|exact Hc].
    apply apiKey_undefined_set; [discriminate | exact Hc]. }
  destruct (useLocalhost_cases url (forceGenerateOnly loaded))
    as [[e ->]|[->|[v ->]]].
  - right. now exists e.
  - left. apply apiKey_undefined_rejected. now apply Hdefault.
  - left. apply apiKey_undefined_rejected. apply Hdefault.
    apply apiKey_undefined_set; [discriminate | exact Hforced].
Qed.

(** C10, on a platform configuration that [configure] accepts without
    local debug mode.  With local debug mode the forced configuration still
    has the properties [apiKey] and [lostPixelProjectId] (holding
    [undefined]), so it is still validated as a platform configuration,
    both are reported as required and the process exits; had the two
    properties been removed, the configuration would have been accepted as a
    generate-only one. *)
Theorem localDebug_rejects_platform_config :
  (exists data, configure ciEnv noUrl None false platformConfig = ([], Returned data))
  /\ forceGenerateOnly platformConfig
     = [("apiKey", VUndefined);
        ("lostPixelProjectId", VUndefined);
        ("storybookShots", VObj [("storybookUrl", VStr "storybook-static")]);
        ("generateOnly", VBool true)]
  /\ isPlatformModeConfig (forceGenerateOnly platformConfig) = true
  /\ configure ciEnv noUrl None true platformConfig
     = (printConfigErrors
          [mkIssue [Key "apiKey"] "Required";
           mkIssue [Key "lostPixelProjectId"] "Required"],
        Exited 1)
  /\ (exists data,
        parseConfig ciEnv
          [("storybookShots", VObj [("storybookUrl", VStr "storybook-static")]);
           ("generateOnly", VBool true)]
        = ([], Returned data)).
Proof.
  split; [eexists; vm_compute; reflexivity|].
  split; [reflexivity|]. split; [reflexivity|].
  split; [vm_compute; reflexivity|].
  eexists. vm_compute. reflexivity.
Qed.

(* ------------------------------------------------------------------ *)
(** ** The threshold decision *)

Import Pipeline.

Lemma ltb_lt x y : ltb x y = true <-> (x < y)%Q.
Proof.
  unfold ltb. destruct (Qlt_le_dec x y) as [H|H].
  - tauto.
  - split; [discriminate|]. intros Hlt. now apply Qlt_not_le in Hlt.
Qed.

Lemma ltb_ge x y : ltb x y = false <-> (y <= x)%Q.
Proof.
  unfold ltb. destruct (Qlt_le_dec x y) as [H|H].
  - split; [discriminate|]. intros Hle. now apply Qlt_not_le in H.
  - tauto.
Qed.

(** C2. With total = width × height, the effective limit is threshold ×
    total for a threshold below 1 and the threshold itself from 1 on; the
    status is failed exactly when the count of differing pixels exceeds the
    effective limit, and passed otherwise. *)
Theorem threshold_decision (threshold : Q) (width height diffPixelCount : nat) :
  let total := pixels (width * height) in
  let limit := effectiveLimit threshold total in
  ((threshold < 1)%Q -> limit = (threshold * total)%Q)
  /\ ((1 <= threshold)%Q -> limit = threshold)
  /\ (compareStatus threshold width height diffPixelCount = failed
      <-> (limit < pixels diffPixelCount)%Q)
  /\ (compareStatus threshold width height diffPixelCount = passed
      <-> (pixels diffPixelCount <= limit)%Q).
Proof.
  intros total limit. repeat split.
  - intros H. unfold limit, effectiveLimit. apply ltb_lt in H. now rewrite H.
  - intros H. unfold limit, effectiveLimit. apply ltb_ge in H. now rewrite H.
  - unfold compareStatus. fold total. fold limit.
    destruct (ltb limit (pixels diffPixelCount)) eqn:E; [|discriminate].
    intros _. now apply ltb_lt.
  - intros H. unfold compareStatus. fold total. fold limit.
    apply ltb_lt in H. now rewrite H.
  - unfold compareStatus. fold total. fold limit.
    destruct (ltb limit (pixels diffPixelCount)) eqn:E; [discriminate|].
    intros _. now apply ltb_ge.
  - intros H. unfold compareStatus. fold total. fold limit.
    apply ltb_ge in H. now rewrite H.
Qed.

Lemma threshold_decision_witness :
  effectiveLimit (1 # 100) (pixels (100 * 100))
  = ((1 # 100) * pixels (100 * 100))%Q
  /\ effectiveLimit (inject_Z 25) (pixels (100 * 100)) = inject_Z 25.
Proof.
  split.
  - apply (threshold_decision (1 # 100) 100 100 50). reflexivity.
  - apply (threshold_decision (inject_Z 25) 100 100 50).
    unfold Qle. simpl. lia.
Defined.

(** The scenarios of the specification: 50 of 10,000 pixels pass a
    threshold of 0.01, 150 do not; identical images pass a threshold of 0. *)
Example threshold_scenarios :
  compareStatus (1 # 100) 100 100 50 = passed
  /\ compareStatus (1 # 100) 100 100 150 = failed
  /\ compareStatus (inject_Z 0) 100 100 0 = passed
  /\ compareStatus (inject_Z 200) 100 100 150 = passed.
Proof. repeat split. Qed.

(** Rounding the effective limit down does not change the status, the
    count of differing pixels being whole. *)
Lemma floor_keeps_decision (limit : Q) (diffPixelCount : nat) :
  (limit < pixels diffPixelCount)%Q
  <-> (inject_Z (Qfloor limit) < pixels diffPixelCount)%Q.
Proof.
  unfold pixels. split; intros H.
  - eapply Qle_lt_trans; [apply Qfloor_le | exact H].
  - rewrite <- Zlt_Qlt in H.
    eapply Qlt_le_trans; [apply Qlt_floor|].
    rewrite <- Zle_Qle. lia.
Qed.

(* ------------------------------------------------------------------ *)
(** ** The retry budget *)

Section RetryFacts.
Context {image : Type}.
Variables (w : Z) (attempt : nat -> image * bool).

Lemma alternating_attempts n i : attempts (alternating w n i) = n + 1.
Proof.
  revert i. induction n as [|n IH]; intros i; [reflexivity|].
  unfold attempts in *. simpl. now rewrite IH.
Qed.

Lemma alternating_waits n i : waits (alternating w n i) = repeat w n.
Proof.
  revert i. induction n as [|n IH]; intros i; [reflexivity|].
  simpl. now rewrite IH.
Qed.

(** Never more than budget + 1 attempts, whatever the judgements. *)
Lemma retry_attempts_le budget i :
  attempts (trace (retry w attempt budget i)) <= budget + 1.
Proof.
  revert i. induction budget as [|b IH]; intros i; simpl.
  - destruct (attempt i). simpl. unfold attempts. simpl. lia.
  - destruct (attempt i) as [img unstable]. destruct unstable; simpl.
    + specialize (IH (S i)). unfold attempts in *. simpl. lia.
    + unfold attempts. simpl. lia.
Qed.

Lemma retry_always_unstable budget i :
  (forall j, snd (attempt j) = true) ->
  trace (retry w attempt budget i) = alternating w budget i
  /\ attemptsUsed (retry w attempt budget i) = i + budget + 1
  /\ used (retry w attempt budget i) = fst (attempt (i + budget)).
Proof.
  intros Hu. revert i. induction budget as [|b IH]; intros i; simpl.
  - destruct (attempt i) as [img unstable] eqn:E. simpl.
    rewrite Nat.add_0_r, E. repeat split. lia.
  - pose proof (Hu i) as Hi.
    destruct (attempt i) as [img unstable]. simpl in Hi. subst unstable.
    destruct (IH (S i)) as [Ht [Ha Hv]]. simpl.
    rewrite Ht, Ha, Hv. repeat split; [lia|].
    f_equal. f_equal. lia.
Qed.
End RetryFacts.

(** C3. With [flakynessRetries = n], a target is attempted at most [n + 1]
    times; when every attempt is judged unstable it is attempted exactly
    [n + 1] times, with one wait of [waitBetweenFlakynessRetries]
    milliseconds between consecutive attempts, and the image of the last
    attempt is the one used. *)
Theorem retry_bound {image : Type} (waitBetweenFlakynessRetries : Z)
    (attempt : nat -> image * bool) (n : nat) :
  let result := captureWithRetries waitBetweenFlakynessRetries attempt n in
  attempts (trace result) <= n + 1
  /\ ((forall i, snd (attempt i) = true) ->
      attempts (trace result) = n + 1
      /\ attemptsUsed result = n + 1
      /\ trace result = alternating waitBetweenFlakynessRetries n 0
      /\ waits (trace result) = repeat waitBetweenFlakynessRetries n
      /\ used result = fst (attempt n)).
Proof.
  intros result. split; [apply retry_attempts_le|].
  intros Hu. unfold result, captureWithRetries.
  destruct (retry_always_unstable waitBetweenFlakynessRetries attempt n 0 Hu)
    as [Ht [Ha Hv]].
  rewrite Ht, Ha, Hv, alternating_attempts, alternating_waits.
  repeat split.
Qed.

Lemma retry_bound_witness :
  let result := captureWithRetries 2000 (fun i => (i, true)) 2 in
  attempts (trace result) = 3
  /\ attemptsUsed result = 3
  /\ trace result
     = [Attempted 0; Waited 2000; Attempted 1; Waited 2000; Attempted 2]
  /\ waits (trace result) = [2000%Z; 2000%Z]
  /\ used result = 2.
Proof.
  apply (retry_bound 2000 (fun i => (i, true)) 2). reflexivity.
Defined.

(* ------------------------------------------------------------------ *)
(** ** The worker pools *)

Section PoolFacts.
Variables shotConcurrency compareConcurrency : nat.

Implicit Types (s : pools) (schedule : list action).

Lemma take_out_length t l : length (take_out t l) <= length l.
Proof.
  induction l as [|x rest IH]; simpl; [lia|].
  destruct (Nat.eqb t x); simpl; lia.
Qed.

Lemma step_within_bounds a s s' :
  within_bounds shotConcurrency compareConcurrency s ->
  step shotConcurrency compareConcurrency a s = Some s' ->
  within_bounds shotConcurrency compareConcurrency s'.
Proof.
  intros [Hc Hd] H. unfold step in H.
  destruct a as [|t|t|t].
  - destruct (queued s) as [|t rest]; [discriminate|].
    destruct (Nat.ltb_spec (length (capturing s)) shotConcurrency);
      [|discriminate].
    injection H as <-. split; simpl; [lia | exact Hd].
  - destruct (member t (capturing s)); [|discriminate].
    injection H as <-. split; simpl; [|exact Hd].
    pose proof (take_out_length t (capturing s)). lia.
  - destruct (member t (awaiting s)); [|discriminate]. simpl in H.
    destruct (Nat.ltb_spec (length (comparing s)) compareConcurrency);
      [|discriminate].
    injection H as <-. split; simpl; [exact Hc | lia].
  - destruct (member t (comparing s)); [|discriminate].
    injection H as <-. split; simpl; [exact Hc|].
    pose proof (take_out_length t (comparing s)). lia.
Qed.

Lemma execute_within_bounds schedule s s' :
  within_bounds shotConcurrency compareConcurrency s ->
  execute shotConcurrency compareConcurrency schedule s = Some s' ->
  within_bounds shotConcurrency compareConcurrency s'.
Proof.
  revert s. induction schedule as [|a rest IH]; intros s Hs H.
  - simpl in H. injection H as <-. exact Hs.
  - simpl in H.
    destruct (step shotConcurrency compareConcurrency a s)
      as [s1|] eqn:E; [|discriminate].
    apply (IH s1); [|exact H]. now apply (step_within_bounds a s).
Qed.

(** Every point of an execution is itself the end of an execution. *)
Lemma execute_prefix schedule s s' k :
  execute shotConcurrency compareConcurrency schedule s = Some s' ->
  exists s_k,
    execute shotConcurrency compareConcurrency (firstn k schedule) s = Some s_k.
Proof.
  revert s k. induction schedule as [|a rest IH]; intros s k H.
  - rewrite firstn_nil. now exists s.
  - destruct k as [|k]; [now exists s|].
    simpl in *.
    destruct (step shotConcurrency compareConcurrency a s)
      as [s1|]; [|discriminate].
    now apply IH.
Qed.

(** A saturated pool takes no further target. *)
Lemma saturated_pool_blocks s :
  shotConcurrency <= length (capturing s) ->
  step shotConcurrency compareConcurrency StartCapture s = None.
Proof.
  intros H. unfold step. destruct (queued s); [reflexivity|].
  destruct (Nat.ltb_spec (length (capturing s)) shotConcurrency);
    [lia | reflexivity].
Qed.
End PoolFacts.

(** C4. Whatever the catalog and whatever the execution, at each of its
    points at most [shotConcurrency] captures and at most
    [compareConcurrency] comparisons are in flight. *)
Theorem pools_within_bounds (shotConcurrency compareConcurrency : nat)
    (catalog : list nat) (schedule : list action) (final : pools) :
  execute shotConcurrency compareConcurrency schedule (start catalog)
  = Some final ->
  forall k,
    exists s,
      execute shotConcurrency compareConcurrency (firstn k schedule)
        (start catalog) = Some s
      /\ length (capturing s) <= shotConcurrency
      /\ length (comparing s) <= compareConcurrency.
Proof.
  intros H k.
  destruct (execute_prefix _ _ _ _ _ k H) as [s Hs].
  exists s. split; [exact Hs|].
  apply (execute_within_bounds _ _ (firstn k schedule) (start catalog) s);
    [|exact Hs].
  split; simpl; lia.
Qed.

Lemma pools_within_bounds_witness :
  exists s,
    execute 2 1 (firstn 4 exampleSchedule) (start [1; 2; 3]) = Some s
    /\ length (capturing s) <= 2
    /\ length (comparing s) <= 1.
Proof.
  apply (pools_within_bounds 2 1 [1; 2; 3] exampleSchedule
           (mkPools [] [] [] [] [2; 1; 3])).
  reflexivity.
Defined.

(** The example execution captures and compares every target, and a third
    simultaneous capture is refused. *)
Example pools_example :
  execute 2 1 exampleSchedule (start [1; 2; 3])
  = Some (mkPools [] [] [] [] [2; 1; 3])
  /\ execute 2 1 [StartCapture; StartCapture; StartCapture] (start [1; 2; 3])
     = None.
Proof. split; reflexivity. Qed.

(* ------------------------------------------------------------------ *)
(** ** Loading the project configuration *)

Section LoadingFacts.

Variables (cwd : string) (LOST_PIXEL_CONFIG_DIR : option string).
Variables (isAbsolute : string -> bool) (pathJoin : list string -> string).
Variable existsSync : string -> bool.
Variables loadProjectConfigFile loadTSProjectConfigFile require : string -> loading.

Let base : string :=
  configFileNameBase cwd LOST_PIXEL_CONFIG_DIR isAbsolute pathJoin.

Let files : list string :=
  configFiles cwd LOST_PIXEL_CONFIG_DIR isAbsolute pathJoin existsSync.

Let loadProjectConfig' : list logCall * ending value :=
  loadProjectConfig cwd LOST_PIXEL_CONFIG_DIR isAbsolute pathJoin existsSync
    loadProjectConfigFile loadTSProjectConfigFile require.

Lemma configFiles_exist f : In f files -> existsSync f = true.
Proof. unfold files, configFiles. intros H. now apply filter_In in H. Qed.

Lemma loadFallback_ends f :
  let result :=
    snd (loadFallback cwd LOST_PIXEL_CONFIG_DIR isAbsolute pathJoin existsSync
           loadTSProjectConfigFile require f) in
  result = Exited 1
  \/ (exists c, result = Returned c
                /\ (existsSync (base ++ ".js") = true
                    /\ require (base ++ ".js") = Loaded c
                    \/ loadTSProjectConfigFile f = Loaded c)).
Proof.
  unfold loadFallback. fold base.
  destruct (existsSync (base ++ ".js")) eqn:Ejs.
  - destruct (require (base ++ ".js")) as [c|e] eqn:Er; simpl; eauto 10.
  - destruct (existsSync (base ++ ".ts")).
    + destruct (loadTSProjectConfigFile f) as [c|e] eqn:Et; simpl; eauto 10.
    + simpl. auto.
Qed.

(** X1. [loadProjectConfig] never throws and never exits with another code than
    1; the configuration it returns is what one of the three loaders made
    of a configuration file that exists. *)
Theorem loadProjectConfig_returns_loaded_file_or_exits :
  snd loadProjectConfig' = Exited 1
  \/ exists c,
       snd loadProjectConfig' = Returned c
       /\ ((exists f, In f files /\ existsSync f = true
                      /\ (loadProjectConfigFile f = Loaded c
                          \/ loadTSProjectConfigFile f = Loaded c))
           \/ (existsSync (base ++ ".js") = true
               /\ require (base ++ ".js") = Loaded c)).
Proof.
  unfold loadProjectConfig', loadProjectConfig. fold files.
  destruct files as [|f others] eqn:Efiles; [now left|].
  assert (Hf : In f files) by (rewrite Efiles; now left).
  rewrite Efiles in Hf.
  assert (Hex : existsSync f = true).
  { apply configFiles_exist. rewrite Efiles. exact Hf. }
  destruct (loadProjectConfigFile f) as [c|e] eqn:El.
  - right. exists c. split; [reflexivity|]. left. exists f. auto.
  - pose proof (loadFallback_ends f) as Hfb. simpl in Hfb.
    destruct (loadFallback cwd LOST_PIXEL_CONFIG_DIR isAbsolute pathJoin
                existsSync loadTSProjectConfigFile require f) as [lines result].
    simpl in *. destruct Hfb as [->|[c [-> Hc]]]; [now left|].
    right. exists c. split; [reflexivity|].
    destruct Hc as [Hc|Hc]; [now right|]. left. exists f. auto.
Qed.

(** X2. Without any of the four configuration files the process exits with
    code 1 after reporting that no file was found. *)
Theorem loadProjectConfig_without_file :
  (forall ext, In ext configExtensions ->
               existsSync (base ++ "." ++ ext) = false) ->
  loadProjectConfig'
  = ((loadingLines cwd LOST_PIXEL_CONFIG_DIR isAbsolute pathJoin
      ++ [errorCall
            ["Couldn't find project config file 'lostpixel.config.(ts|js|cjs|mjs)'"]])%list,
     Exited 1).
Proof.
  intros H. unfold loadProjectConfig', loadProjectConfig.
  assert (Hnone : configFiles cwd LOST_PIXEL_CONFIG_DIR isAbsolute pathJoin
                    existsSync = []).
  { unfold configFiles, configExtensions. fold base. cbn [map filter].
    rewrite (H "ts"), (H "js"), (H "cjs"), (H "mjs");
      unfold configExtensions; simpl; auto 10. }
  now rewrite Hnone.
Qed.

(** X3. The extensions are tried in the order ts, js, cjs, mjs: the first file
    that exists is the one given to [loadProjectConfigFile], and what that
    loader makes of it is returned. *)
Theorem loadProjectConfig_first_extension before ext after c :
  configExtensions = (before ++ ext :: after)%list ->
  (forall e, In e before -> existsSync (base ++ "." ++ e) = false) ->
  existsSync (base ++ "." ++ ext) = true ->
  loadProjectConfigFile (base ++ "." ++ ext) = Loaded c ->
  snd loadProjectConfig' = Returned c
  /\ hd_error files = Some (base ++ "." ++ ext).
Proof.
  intros Hexts Hbefore Hext Hload.
  assert (Hfiles : exists others, files = (base ++ "." ++ ext) :: others).
  { unfold files, configFiles. fold base. rewrite Hexts.
    rewrite map_app, filter_app. cbn [map filter]. rewrite Hext.
    replace (filter existsSync (map (fun e => base ++ "." ++ e) before))
      with (@nil string); [cbn [app]; eauto|].
    symmetry. clear Hexts. induction before as [|e rest IH]; [reflexivity|].
    cbn [map filter]. rewrite Hbefore by now left.
    apply IH. intros e' He'. apply Hbefore. now right. }
  destruct Hfiles as [others Hfiles]. split.
  - unfold loadProjectConfig', loadProjectConfig. fold files.
    rewrite Hfiles, Hload. reflexivity.
  - now rewrite Hfiles.
Qed.

(** X4. When [loadProjectConfigFile] fails on the file that was found: with a
    [.js] file the result is that of [require] on it; without one but with
    a [.ts] file, the file found is that [.ts] file and the TypeScript
    loader is tried on it; with neither (only [.cjs] or [.mjs] files exist)
    the process exits with code 1. *)
Theorem loadProjectConfig_fallback f others e :
  files = f :: others ->
  loadProjectConfigFile f = Failed e ->
  (existsSync (base ++ ".js") = true ->
   snd loadProjectConfig'
   = match require (base ++ ".js") with
     | Loaded c => Returned c
     | Failed _ => Exited 1
     end)
  /\ (existsSync (base ++ ".js") = false ->
      existsSync (base ++ ".ts") = true ->
      f = base ++ ".ts"
      /\ snd loadProjectConfig'
         = match loadTSProjectConfigFile (base ++ ".ts") with
           | Loaded c => Returned c
           | Failed _ => Exited 1
           end)
  /\ (existsSync (base ++ ".js") = false ->
      existsSync (base ++ ".ts") = false ->
      snd loadProjectConfig' = Exited 1).
Proof.
  intros Hfiles Hload.
  assert (Hrun : snd loadProjectConfig'
                 = snd (loadFallback cwd LOST_PIXEL_CONFIG_DIR isAbsolute
                          pathJoin existsSync loadTSProjectConfigFile require f)).
  { unfold loadProjectConfig', loadProjectConfig. fold files.
    rewrite Hfiles, Hload.
    now destruct (loadFallback cwd LOST_PIXEL_CONFIG_DIR isAbsolute pathJoin
                    existsSync loadTSProjectConfigFile require f). }
  assert (Hts : existsSync (base ++ ".ts") = true -> f = base ++ ".ts").
  { intros Hts. unfold files, configFiles, configExtensions in Hfiles.
    fold base in Hfiles. cbn [map filter] in Hfiles.
    change (base ++ "." ++ "ts") with (base ++ ".ts") in Hfiles.
    rewrite Hts in Hfiles. now injection Hfiles as <- _. }
  rewrite Hrun. unfold loadFallback. fold base. split; [|split].
  - intros ->. now destruct (require (base ++ ".js")).
  - intros Hjs Hts'. split; [now apply Hts|].
    rewrite Hjs, Hts', (Hts Hts').
    now destruct (loadTSProjectConfigFile (base ++ ".ts")).
  - intros -> ->. reflexivity.
Qed.

End LoadingFacts.

Lemma loadProjectConfig_without_file_witness :
  snd (loadProjectConfig "/project" None (fun _ => true) joinSegments
         (directory []) loadsEmpty loadsEmpty loadsEmpty)
  = Exited 1.
Proof.
  rewrite (loadProjectConfig_without_file "/project" None (fun _ => true)
             joinSegments (directory []) loadsEmpty loadsEmpty loadsEmpty).
  - reflexivity.
  - intros ext _. reflexivity.
Defined.

Lemma loadProjectConfig_first_extension_witness :
  snd (loadProjectConfig "/project" None (fun _ => true) joinSegments
         (directory ["/project/lostpixel.config.js";
                     "/project/lostpixel.config.mjs"])
         loadsEmpty neverLoads neverLoads)
  = Returned (VObj []).
Proof.
  apply (loadProjectConfig_first_extension "/project" None (fun _ => true)
           joinSegments
           (directory ["/project/lostpixel.config.js";
                       "/project/lostpixel.config.mjs"])
           loadsEmpty neverLoads neverLoads ["ts"] "js" ["cjs"; "mjs"] (VObj [])).
  - reflexivity.
  - intros e [<-|[]]. reflexivity.
  - reflexivity.
  - reflexivity.
Defined.

Lemma loadProjectConfig_fallback_witness :
  snd (loadProjectConfig "/project" None (fun _ => true) joinSegments
         (directory ["/project/lostpixel.config.mjs"])
         neverLoads loadsEmpty loadsEmpty)
  = Exited 1.
Proof.
  apply (loadProjectConfig_fallback "/project" None (fun _ => true)
           joinSegments (directory ["/project/lostpixel.config.mjs"])
           neverLoads loadsEmpty loadsEmpty
           "/project/lostpixel.config.mjs" [] "cannot load");
    reflexivity.
Defined.

(* ------------------------------------------------------------------ *)
(** ** More on parsing *)

Lemma get_defined_has k (o : obj) : get k o <> VUndefined -> has k o = true.
Proof.
  intros H. destruct (has k o) eqn:E; [reflexivity|].
  elim H. now apply get_absent.
Qed.

Lemma schemaFor_keys env c shape :
  schemaFor env c = ZObject shape -> map fst shape = keysFor c.
Proof.
  unfold schemaFor, keysFor. destruct (isPlatformModeConfig c); intros [= <-].
  - apply platformKeys_env.
  - reflexivity.
Qed.

Ltac own_issue H Hi :=
  first [ discriminate H
        | injection H as <-; destruct Hi as [<-|[]]; exists [];
          now rewrite app_nil_r ].

(** Every issue lies at or below the path the parser was started at. *)
Lemma parse_issue_paths s :
  forall p v errs, parse s p v = Invalid errs ->
  forall i, In i errs -> exists rest, path i = (p ++ rest)%list.
Proof.
  induction s as [ | | | | options | element IH | shape IH | inner IH
                 | inner dflt IH | alternatives IH ] using schema_ind;
    intros p v errs H i Hi.
  - destruct v; simpl in H; own_issue H Hi.
  - destruct v; simpl in H; own_issue H Hi.
  - destruct v; simpl in H; own_issue H Hi.
  - destruct v; simpl in H; own_issue H Hi.
  - destruct v; simpl in H; try own_issue H Hi.
    destruct (mem s options); own_issue H Hi.
  - destruct v; simpl in H; try own_issue H Hi.
    apply mergeArray_invalid in H as [-> _].
    apply in_flat_map in Hi as [r [Hr Hi]].
    destruct (mapi_from_In _ _ _ _ Hr) as [j [x [_ ->]]].
    destruct (parse element (p ++ [Idx j])%list x) as [d|e] eqn:E;
      [contradiction|].
    destruct (IH _ _ _ E i Hi) as [rest ->].
    exists (Idx j :: rest). now rewrite <- app_assoc.
  - destruct v; try (simpl in H; own_issue H Hi).
    rewrite parse_object in H. apply mergeObject_invalid in H as [-> _].
    apply in_flat_map in Hi as [f [Hf Hi]].
    unfold object_fields in Hf. apply in_map_iff in Hf as [[k s] [<- Hks]].
    unfold field_issues in Hi. simpl in Hi.
    rewrite Forall_forall in IH. specialize (IH _ Hks). simpl in IH.
    destruct (parse s (p ++ [Key k])%list (get k props)) as [d|e] eqn:E;
      [contradiction|].
    destruct (IH _ _ _ E i Hi) as [rest ->].
    exists (Key k :: rest). now rewrite <- app_assoc.
  - destruct v; simpl in H; try (now apply (IH _ _ _ H)); discriminate.
  - destruct v; simpl in H; now apply (IH _ _ _ H).
  - simpl in H.
    destruct (first_valid (map (fun a => parse a p v) alternatives));
      own_issue H Hi.
Qed.

(** The issues of an object lie below its fields. *)
Lemma parse_object_issue_paths shape p o errs i :
  parse (ZObject shape) p (VObj o) = Invalid errs ->
  In i errs ->
  exists k rest, In k (map fst shape) /\ path i = (p ++ Key k :: rest)%list.
Proof.
  rewrite parse_object. intros H Hi.
  apply mergeObject_invalid in H as [-> _].
  apply in_flat_map in Hi as [f [Hf Hi]].
  unfold object_fields in Hf. apply in_map_iff in Hf as [[k s] [<- Hks]].
  unfold field_issues in Hi. simpl in Hi.
  destruct (parse s (p ++ [Key k])%list (get k o)) as [d|e] eqn:E;
    [contradiction|].
  destruct (parse_issue_paths s _ _ _ E i Hi) as [rest ->].
  exists k, rest. split.
  - apply in_map_iff. now exists (k, s).
  - now rewrite <- app_assoc.
Qed.

Lemma parseConfig_exit_issues env (config : obj) lines code :
  parseConfig env config = (lines, Exited code) ->
  code = 1%Z
  /\ exists issues,
       lines = printConfigErrors issues
       /\ issues <> []
       /\ Forall
            (fun issue =>
               exists k rest,
                 In k (keysFor config) /\ path issue = Key k :: rest)
            issues.
Proof.
  rewrite parseConfig_schemaFor.
  destruct (safeParse (schemaFor env config) (VObj config))
    as [d|errs] eqn:E; [discriminate|].
  intros [= <- <-]. split; [reflexivity|].
  exists errs. split; [reflexivity|]. split.
  - eapply parse_invalid_nonempty. exact E.
  - destruct (schemaFor_shape env config) as [shape [Hs _]].
    rewrite Hs in E. unfold safeParse in E.
    apply Forall_forall. intros i Hi.
    destruct (parse_object_issue_paths _ _ _ _ _ E Hi) as [k [rest [Hk Hp]]].
    exists k, rest. split; [|exact Hp].
    now rewrite <- (schemaFor_keys env config shape Hs).
Qed.

(** X5. Whenever [parseConfig] ends the process, the code is 1 and it has
    printed at least one line.  On a configuration that is a plain object,
    every line is for an issue whose path starts at a field declared by the
    schema of the configuration's mode; on an array or a function there is
    one line, at the empty path, saying that an object was expected. *)
Theorem parseConfig_errors_name_declared_fields env (userConfig : value)
    lines code :
  parseConfigValue env userConfig = (lines, Exited code) ->
  code = 1%Z
  /\ exists issues,
       lines = printConfigErrors issues
       /\ issues <> []
       /\ ((exists config,
              userConfig = VObj config
              /\ Forall
                   (fun issue =>
                      exists k rest,
                        In k (keysFor config) /\ path issue = Key k :: rest)
                   issues)
           \/ ((exists items, userConfig = VArr items)
                \/ (exists f, userConfig = VFun f))
              /\ issues
                 = [mkIssue []
                      ("Expected object, received " ++ parsedType userConfig)]).
Proof.
  intros H.
  destruct userConfig as [ | |b|q| |s|items|config|f]; simpl in H;
    try discriminate.
  - injection H as <- <-. split; [reflexivity|].
    exists [mkIssue [] ("Expected object, received " ++ parsedType (VArr items))].
    split; [reflexivity|]. split; [discriminate|].
    right. split; [left; eauto | reflexivity].
  - destruct (parseConfig_exit_issues env config lines code H)
      as [Hcode [issues [Hlines [Hne Hall]]]].
    split; [exact Hcode|]. exists issues. split; [exact Hlines|].
    split; [exact Hne|]. left. eauto.
  - injection H as <- <-. split; [reflexivity|].
    exists [mkIssue [] ("Expected object, received " ++ parsedType (VFun f))].
    split; [reflexivity|]. split; [discriminate|].
    right. split; [right; eauto | reflexivity].
Qed.

Lemma parseConfig_errors_name_declared_fields_witness :
  exists issues,
    [mkLog "error" "config"
       ("Configuration error:" ++ nl
          ++ "  - Path: " ++ nl
          ++ "  - Message: Expected object, received array")]
    = printConfigErrors issues
    /\ issues <> []
    /\ ((exists config,
           VArr [num 1] = VObj config
           /\ Forall
                (fun issue =>
                   exists k rest,
                     In k (keysFor config) /\ path issue = Key k :: rest)
                issues)
        \/ ((exists items, VArr [num 1] = VArr items)
             \/ (exists f, VArr [num 1] = VFun f))
           /\ issues
              = [mkIssue []
                   ("Expected object, received " ++ parsedType (VArr [num 1]))]).
Proof.
  apply (parseConfig_errors_name_declared_fields noEnv (VArr [num 1]) _ 1%Z).
  reflexivity.
Defined.

(** The configuration [parseConfig] returns is in the mode of the
    configuration it was given. *)
Lemma returned_config_mode env (userConfig : obj) log data :
  parseConfig env userConfig = (log, Returned data) ->
  exists out,
    data = VObj out
    /\ isPlatformModeConfig out = isPlatformModeConfig userConfig.
Proof.
  intros H. apply parseConfig_returned in H as [_ H].
  unfold schemaFor, safeParse in H. unfold isPlatformModeConfig at 2.
  destruct (isPlatformModeConfig userConfig) eqn:Hmode;
    unfold isPlatformModeConfig in Hmode; rewrite Hmode;
    unfold GenerateOnlyModeConfigSchema, PlatformModeConfigSchema in H.
  - assert (Hin : In ("apiKey", ZString) (PlatformModeConfigShape env))
      by (cbv -[env_value]; auto 40).
    destruct (parse_object_data _ _ _ _ _ _ (platformKeys_NoDup env) H Hin)
      as [out [-> Hk]].
    exists out. split; [reflexivity|]. unfold isPlatformModeConfig.
    rewrite (get_defined_has "apiKey" out); [reflexivity|].
    intros Hu. rewrite Hu in Hk.
    destruct (get "apiKey" userConfig); simpl in Hk; discriminate.
  - pose proof H as H'. rewrite parse_object in H'.
    apply mergeObject_valid in H' as [_ ->].
    remember (flat_map field_output
                (object_fields GenerateOnlyModeConfigShape [] userConfig))
      as out eqn:Hout.
    clear Hout Hmode. exists out. split; [reflexivity|].
    unfold isPlatformModeConfig. apply orb_false_iff. split.
    + destruct (has "apiKey" out) eqn:E; [|reflexivity].
      apply (parse_object_keys _ _ _ _ _ H) in E.
      vm_compute in E. intuition discriminate.
    + destruct (has "lostPixelProjectId" out) eqn:E; [|reflexivity].
      apply (parse_object_keys _ _ _ _ _ H) in E.
      vm_compute in E. intuition discriminate.
Qed.

(* ------------------------------------------------------------------ *)
(** ** The fields of an accepted configuration *)

(** The parsed data of a field of the schema a configuration was checked
    against. *)
Lemma parseConfig_field env c log data k s :
  parseConfig env c = (log, Returned data) ->
  (forall shape, schemaFor env c = ZObject shape -> In (k, s) shape) ->
  exists out,
    data = VObj out /\ parse s [Key k] (get k c) = Valid (get k out).
Proof.
  intros H Hin. apply parseConfig_returned in H as [_ H].
  destruct (schemaFor_shape env c) as [shape [Hs [_ [Hnd _]]]].
  specialize (Hin shape Hs). rewrite Hs in H. unfold safeParse in H.
  exact (parse_object_data _ _ _ _ _ _ Hnd H Hin).
Qed.

Lemma parseConfig_base_field env c log data k s :
  parseConfig env c = (log, Returned data) ->
  In (k, s) BaseConfigShape ->
  exists out,
    data = VObj out /\ parse s [Key k] (get k c) = Valid (get k out).
Proof.
  intros H Hin. apply (parseConfig_field env c log data k s H).
  intros shape Hs. destruct (schemaFor_shape env c) as [shape' [Hs' [Hbase _]]].
  rewrite Hs in Hs'. injection Hs' as <-. now apply Hbase.
Qed.

(** Giving a field of the base schema a value that is valid for it keeps
    an accepted configuration accepted. *)
Lemma accepted_after_set env c k s v :
  In (k, s) BaseConfigShape ->
  is_valid (parse s [Key k] v) = true ->
  (exists data, parseConfig env c = ([], Returned data)) ->
  exists out,
    parseConfig env (set k v c) = ([], Returned (VObj out))
    /\ parse s [Key k] v = Valid (get k out).
Proof.
  intros Hbase Hv [data H].
  apply parseConfig_returned in H as [_ H].
  assert (Hk : k <> "apiKey" /\ k <> "lostPixelProjectId").
  { simpl in Hbase. intuition congruence. }
  destruct Hk as [Hk1 Hk2].
  destruct (schemaFor_shape env c) as [shape [Hs [Hincl [Hnd _]]]].
  assert (Hin : In (k, s) shape) by now apply Hincl.
  rewrite Hs in H. unfold safeParse in H.
  assert (Hall : forall k' s', In (k', s') shape ->
            is_valid (parse s' ([] ++ [Key k'])%list (get k' (set k v c))) = true).
  { intros k' s' Hin'. destruct (String.eqb_spec k' k) as [->|Hne].
    - rewrite get_set_same.
      now rewrite (shape_functional shape k s' s Hnd Hin' Hin).
    - rewrite get_set_other by exact Hne.
      destruct (parse_object_field_valid _ _ _ _ _ _ H Hin') as [dk ->].
      reflexivity. }
  pose proof (parse_object_accepts shape [] (set k v c) Hall) as Hacc.
  destruct (parse_object_data _ _ _ _ _ _ Hnd Hacc Hin) as [out [Hout Hdata]].
  exists out. split.
  - rewrite parseConfig_schemaFor, schemaFor_set, Hs by assumption.
    unfold safeParse. now rewrite Hacc, Hout.
  - rewrite get_set_same in Hdata. exact Hdata.
Qed.

Lemma numericDefaults_base k dflt :
  In (k, dflt) numericDefaults -> In (k, ZDefault ZNumber (num dflt)) BaseConfigShape.
Proof.
  intros H. simpl in H.
  repeat (destruct H as [[= <- <-]|H]; [simpl; auto 30|]). contradiction.
Qed.

(** X7. In an accepted configuration each numeric setting of the base schema
    is a number: the one given, or the documented default when the setting
    is left out. *)
Theorem numeric_settings_are_numbers env (userConfig : obj) log data k dflt :
  parseConfig env userConfig = (log, Returned data) ->
  In (k, dflt) numericDefaults ->
  exists out q,
    data = VObj out
    /\ get k out = VNum q
    /\ (get k userConfig = VUndefined -> q = inject_Z dflt)
    /\ (forall given, get k userConfig = VNum given -> q = given).
Proof.
  intros H Hk. apply numericDefaults_base in Hk.
  destruct (parseConfig_base_field env userConfig log data _ _ H Hk)
    as [out [-> Hout]].
  exists out. remember (get k out) as result eqn:Hres. clear Hres.
  destruct (get k userConfig) as [ | |b|q| |s|xs|o|f]; simpl in Hout;
    try discriminate; injection Hout as <-.
  - exists (inject_Z dflt). split; [reflexivity|]. split; [reflexivity|].
    split; [reflexivity | discriminate].
  - exists q. split; [reflexivity|]. split; [reflexivity|].
    split; [discriminate | now intros given [= ->]].
Qed.

Lemma numeric_settings_are_numbers_witness :
  exists out q,
    snd (parseConfig noEnv [("flakynessRetries", num 3)]) = Returned (VObj out)
    /\ get "flakynessRetries" out = VNum q
    /\ q = inject_Z 3.
Proof.
  assert (Hk : In ("flakynessRetries", 0%Z) numericDefaults)
    by (simpl; auto 10).
  pose proof (fun data H =>
                numeric_settings_are_numbers noEnv
                  [("flakynessRetries", num 3)] [] data "flakynessRetries" 0%Z
                  H Hk) as Hthm.
  edestruct Hthm as [out [q [Hdata [Hq [_ Hgiven]]]]].
  - vm_compute. reflexivity.
  - exists out, q. split; [now rewrite <- Hdata|]. split; [exact Hq|].
    now apply Hgiven.
Defined.

(** X8. The numeric settings are not range-checked: whatever number is given
    for one of them, negative or fractional, an accepted configuration
    stays accepted and carries that number. *)
Theorem numeric_settings_accept_any_number env (userConfig : obj) k dflt q :
  In (k, dflt) numericDefaults ->
  (exists data, parseConfig env userConfig = ([], Returned data)) ->
  exists out,
    parseConfig env (set k (VNum q) userConfig) = ([], Returned (VObj out))
    /\ get k out = VNum q.
Proof.
  intros Hk Hacc. apply numericDefaults_base in Hk.
  destruct (accepted_after_set env userConfig k _ (VNum q) Hk eq_refl Hacc)
    as [out [Hrun Hout]].
  exists out. split; [exact Hrun|]. simpl in Hout. now injection Hout as <-.
Qed.

Lemma numeric_settings_accept_any_number_witness :
  exists out,
    parseConfig noEnv (set "shotConcurrency" (VNum (-7 # 2)) [])
    = ([], Returned (VObj out))
    /\ get "shotConcurrency" out = VNum (-7 # 2).
Proof.
  apply (numeric_settings_accept_any_number noEnv [] "shotConcurrency" 5%Z).
  - simpl. auto 10.
  - eexists. vm_compute. reflexivity.
Defined.

Lemma ciFields_platform env k var :
  In (k, var) ciFields ->
  In (k, ZDefault ZString (env_value env var)) (PlatformModeConfigShape env).
Proof.
  intros H. simpl in H.
  repeat (destruct H as [[= <- <-]|H]; [cbv -[env_value]; auto 40|]).
  contradiction.
Qed.

(** X9. The build fields of a platform configuration ([ciBuildId],
    [ciBuildNumber], [repository], [commitRefName], [commitHash]): a value
    in the configuration wins over the environment variable; left out, the
    field takes the variable's value; left out with the variable unset, the
    configuration is rejected with [Required] at the field. *)
Theorem ci_fields_come_from_environment env (userConfig : obj) k var :
  In (k, var) ciFields ->
  isPlatformModeConfig userConfig = true ->
  (get k userConfig = VUndefined -> env var = None ->
   exists issues,
     parseConfig env userConfig = (printConfigErrors issues, Exited 1)
     /\ In (mkIssue [Key k] "Required") issues)
  /\ (forall log out,
        parseConfig env userConfig = (log, Returned (VObj out)) ->
        exists s,
          get k out = VStr s
          /\ (get k userConfig = VUndefined -> env var = Some s)
          /\ (get k userConfig <> VUndefined -> get k userConfig = VStr s)).
Proof.
  intros Hk Hmode. pose proof (ciFields_platform env k var Hk) as Hin. split.
  - intros Hu Hvar.
    destruct (parse_object_field_invalid (PlatformModeConfigShape env) []
                userConfig k _ [mkIssue [Key k] "Required"] Hin)
      as [issues [Herr Hincl]].
    { rewrite Hu. unfold env_value. rewrite Hvar. reflexivity. }
    exists issues. split; [|apply Hincl; now left].
    unfold parseConfig. rewrite Hmode. unfold safeParse, PlatformModeConfigSchema.
    now rewrite Herr.
  - intros log out H.
    destruct (parseConfig_field env userConfig log _ k
                (ZDefault ZString (env_value env var)) H)
      as [out' [[= <-] Hout]].
    { intros shape Hs. unfold schemaFor in Hs. rewrite Hmode in Hs.
      injection Hs as <-. exact Hin. }
    remember (get k out) as result eqn:Hres. clear Hres.
    destruct (get k userConfig) as [ | |b|q| |s|xs|o|f]; simpl in Hout;
      try discriminate.
    + unfold env_value in Hout. destruct (env var) as [s|]; [|discriminate].
      simpl in Hout. injection Hout as <-. exists s.
      split; [reflexivity|]. split; [reflexivity | congruence].
    + injection Hout as <-. exists s.
      split; [reflexivity|]. split; [discriminate | reflexivity].
Qed.

Lemma ci_fields_come_from_environment_witness :
  exists issues,
    parseConfig noEnv platformConfig = (printConfigErrors issues, Exited 1)
    /\ In (mkIssue [Key "commitHash"] "Required") issues.
Proof.
  destruct (ci_fields_come_from_environment noEnv platformConfig
              "commitHash" "COMMIT_HASH") as [H _].
  - simpl. auto 10.
  - reflexivity.
  - apply H; reflexivity.
Defined.

(* ------------------------------------------------------------------ *)
(** ** The sources of an installed configuration *)

Lemma source_schema_is_object k s :
  In (k, s) sourceFields -> exists shape, s = ZOptional (ZObject shape).
Proof.
  simpl. intros H.
  repeat (destruct H as [[= <- <-]|H]; [eexists; reflexivity|]).
  contradiction.
Qed.

(** What an accepted configuration holds at a source field, by what was
    given there: nothing for nothing, an object for an object, and nothing
    else is accepted. *)
Lemma parsed_source env c log out k s :
  parseConfig env c = (log, Returned (VObj out)) ->
  In (k, s) sourceFields ->
  (get k c = VUndefined /\ get k out = VUndefined)
  \/ (exists given parsed, get k c = VObj given /\ get k out = VObj parsed).
Proof.
  intros H Hk.
  destruct (source_schema_is_object k s Hk) as [shape ->].
  destruct (parseConfig_base_field env c log _ k
              (ZOptional (ZObject shape)) H) as [out' [[= <-] Hout]].
  { now apply sourceFields_base. }
  remember (get k out) as result eqn:Hres. clear Hres.
  destruct (get k c) as [ | |b|q| |str|xs|o|f]; simpl in Hout;
    try discriminate.
  - injection Hout as <-. now left.
  - right. change (parse (ZObject shape) [Key k] (VObj o) = Valid result) in Hout.
    rewrite parse_object in Hout. apply mergeObject_valid in Hout as [_ ->].
    eauto.
Qed.

Lemma noModeDefined_false c :
  noModeDefined c = false <->
  exists k s, In (k, s) sourceFields /\ truthy (get k c) = true.
Proof.
  unfold noModeDefined. split.
  - intros H. repeat (apply andb_false_iff in H as [H|H]);
      apply negb_false_iff in H; do 2 eexists; (split; [|exact H]);
      simpl; auto 10.
  - intros [k [s [Hk Ht]]]. simpl in Hk.
    repeat (destruct Hk as [[= <- <-]|Hk];
            [rewrite Ht; simpl; rewrite ?andb_false_r; reflexivity|]).
    contradiction.
Qed.

(** X10. A custom project configuration is validated as it is: local debug mode
    and the project file play no part, and no source is added: accepted
    without a source, it is installed without one. *)
Theorem custom_config_gets_no_default_source env url (custom : obj)
    localDebugMode loaded log out :
  configure env url (Some custom) localDebugMode loaded
  = (log, Returned (VObj out)) ->
  noModeDefined custom = true ->
  parseConfig env custom = (log, Returned (VObj out))
  /\ noModeDefined out = true
  /\ enabledFamilies out = 0.
Proof.
  intros H Hnone. simpl in H. split; [exact H|].
  assert (Hout : noModeDefined out = true).
  { destruct (noModeDefined out) eqn:E; [reflexivity|].
    apply noModeDefined_false in E as [k [s [Hk Ht]]].
    destruct (parsed_source env custom log out k s H Hk)
      as [[_ Hu]|[given [parsed [Hg _]]]].
    - rewrite Hu in Ht. discriminate.
    - assert (Hc : noModeDefined custom = false).
      { apply noModeDefined_false. exists k, s. split; [exact Hk|].
        now rewrite Hg. }
      congruence. }
  split; [exact Hout|].
  unfold noModeDefined in Hout. rewrite !andb_true_iff, !negb_true_iff in Hout.
  destruct Hout as [[[[H1 H2] H3] H4] H5].
  unfold enabledFamilies, storyCatalogEnabled, pageListEnabled,
    customFolderEnabled.
  now rewrite H1, H2, H3, H4, H5.
Qed.

Lemma custom_config_gets_no_default_source_witness :
  exists out,
    parseConfig noEnv [("threshold", num 1)] = ([], Returned (VObj out))
    /\ noModeDefined out = true
    /\ enabledFamilies out = 0.
Proof.
  pose proof (fun out H =>
                custom_config_gets_no_default_source noEnv noUrl
                  [("threshold", num 1)] true platformConfig [] out H eq_refl)
    as Hthm.
  eexists. apply Hthm. vm_compute. reflexivity.
Defined.

(** X11. A configuration installed from the project file always has a source
    enabled: the one the file enables or the Storybook default. *)
Theorem loaded_config_always_has_source env url localDebugMode (loaded : obj)
    log out :
  configure env url None localDebugMode loaded = (log, Returned (VObj out)) ->
  noModeDefined out = false
  /\ 1 <= enabledFamilies out.
Proof.
  intros H. unfold configure in H.
  destruct (if localDebugMode then localDebug url loaded else Returned loaded)
    as [c|code|e]; try discriminate.
  assert (Hin : noModeDefined (defaultMode c) = false).
  { unfold defaultMode. destruct (noModeDefined c) eqn:E; [|exact E].
    apply noModeDefined_false.
    exists "storybookShots", (ZOptional StorybookShotsSchema).
    split; [simpl; auto|]. now rewrite get_set_same. }
  apply noModeDefined_false in Hin as [k [s [Hk Ht]]].
  assert (Hout : truthy (get k out) = true).
  { destruct (parsed_source env (defaultMode c) log out k s H Hk)
      as [[Hu _]|[given [parsed [_ Hp]]]].
    - rewrite Hu in Ht. discriminate.
    - now rewrite Hp. }
  assert (Hnone : noModeDefined out = false).
  { apply noModeDefined_false. now exists k, s. }
  split; [exact Hnone|].
  unfold enabledFamilies, storyCatalogEnabled, pageListEnabled,
    customFolderEnabled.
  simpl in Hk.
  repeat (destruct Hk as [[= <- <-]|Hk];
          [rewrite Hout; rewrite ?orb_true_r; simpl; lia|]).
  contradiction.
Qed.

Lemma loaded_config_always_has_source_witness :
  exists out,
    configure noEnv noUrl None false [] = ([], Returned (VObj out))
    /\ noModeDefined out = false
    /\ 1 <= enabledFamilies out.
Proof.
  pose proof (fun out H =>
                loaded_config_always_has_source noEnv noUrl false [] [] out H)
    as Hthm.
  eexists. split; [|apply Hthm]; vm_compute; reflexivity.
Defined.

(* ------------------------------------------------------------------ *)
(** ** Local debug mode on a generate-only configuration *)

Lemma some_includes_string runtime baseUrl chunks :
  some (includesChunk runtime (VStr baseUrl)) chunks
  = Some (existsb (fun urlChunk => includes baseUrl urlChunk) chunks).
Proof.
  induction chunks as [|chunk rest IH]; [reflexivity|].
  simpl. destruct (includes baseUrl chunk); [reflexivity | exact IH].
Qed.

Lemma chunk_in_nonempty baseUrl :
  existsb (fun urlChunk => includes baseUrl urlChunk) urlChunks = true ->
  truthy (VStr baseUrl) = true.
Proof.
  destruct baseUrl as [|a rest]; [vm_compute; discriminate | reflexivity].
Qed.

(** X12. On a generate-only loaded configuration, local debug mode never
    changes a property other than [pageShots], and [pageShots] only by
    giving [baseUrl] the rewritten URL.  When [baseUrl] is a string that
    contains [http://], [https://] or [127.0.0.1], the configuration
    returned is the loaded one with [pageShots.baseUrl] rewritten, or the
    rewrite throws when the URL does not parse; when it is a string that
    contains none of them, or [pageShots] or its [baseUrl] is missing, the
    configuration is returned as loaded. *)
Theorem localDebug_changes_only_base_url url (loaded : obj) :
  isPlatformModeConfig loaded = false ->
  (forall c,
     localDebug url loaded = Returned c ->
     (forall k, k <> "pageShots" ->
                get k c = get k loaded /\ has k c = has k loaded)
     /\ (c = loaded
         \/ exists pageShots rewritten,
              get "pageShots" loaded = VObj pageShots
              /\ newUrl url (get "baseUrl" pageShots) = Some rewritten
              /\ c = set "pageShots"
                       (VObj (set "baseUrl" (VStr rewritten) pageShots)) loaded))
  /\ (forall pageShots baseUrl,
        get "pageShots" loaded = VObj pageShots ->
        get "baseUrl" pageShots = VStr baseUrl ->
        (existsb (fun urlChunk => includes baseUrl urlChunk) urlChunks = true ->
         localDebug url loaded
         = match newUrl url (VStr baseUrl) with
           | Some rewritten =>
               Returned
                 (set "pageShots"
                    (VObj (set "baseUrl" (VStr rewritten) pageShots)) loaded)
           | None => Threw "TypeError: Invalid URL"
           end)
        /\ (existsb (fun urlChunk => includes baseUrl urlChunk) urlChunks = false ->
            localDebug url loaded = Returned loaded))
  /\ (truthy (get "pageShots" loaded) = false
      \/ (exists pageShots,
            get "pageShots" loaded = VObj pageShots
            /\ truthy (get "baseUrl" pageShots) = false) ->
      localDebug url loaded = Returned loaded).
Proof.
  intros Hmode. unfold localDebug. rewrite Hmode. split; [|split].
  - intros c H. unfold useLocalhost in H.
    destruct (get "pageShots" loaded) as [ | | | | | |xs|pageShots|f] eqn:Eps;
      try (injection H as <-; split; [now split | now left]).
    destruct (truthy (get "baseUrl" pageShots));
      [|injection H as <-; split; [now split | now left]].
    destruct (some (includesChunk url (get "baseUrl" pageShots)) urlChunks)
      as [[|]|]; try discriminate;
      [|injection H as <-; split; [now split | now left]].
    destruct (newUrl url (get "baseUrl" pageShots)) as [rewritten|] eqn:Er;
      [|discriminate].
    injection H as <-. split.
    + intros k Hk. now rewrite get_set_other, has_set_other.
    + right. exists pageShots, rewritten. auto.
  - intros pageShots baseUrl Hps Hurl. unfold useLocalhost.
    rewrite Hps. cbv zeta. rewrite Hurl, some_includes_string. split.
    + intros Hchunk. rewrite (chunk_in_nonempty baseUrl Hchunk), Hchunk.
      reflexivity.
    + intros Hchunk. rewrite Hchunk. now destruct (truthy (VStr baseUrl)).
  - intros [H|[pageShots [Hps Hfalsy]]].
    + now apply useLocalhost_no_pageShots.
    + unfold useLocalhost. rewrite Hps. cbv zeta. now rewrite Hfalsy.
Qed.

Lemma localDebug_changes_only_base_url_witness :
  localDebug localhost3000 (pagesAt "http://127.0.0.1:3000")
  = Returned (pagesAt "http://localhost:3000/").
Proof.
  destruct (localDebug_changes_only_base_url localhost3000
              (pagesAt "http://127.0.0.1:3000")) as [_ [Hrewrite _]].
  - reflexivity.
  - destruct (Hrewrite [("pages", VArr []);
                        ("baseUrl", VStr "http://127.0.0.1:3000")]
                "http://127.0.0.1:3000") as [H _]; [reflexivity..|].
    rewrite H; reflexivity.
Defined.

(* ------------------------------------------------------------------ *)
(** ** Timeouts, required fields and breakpoints *)

Lemma default_number_cases p v d dflt :
  parse (ZDefault ZNumber (num dflt)) p v = Valid d ->
  (v = VUndefined /\ d = num dflt) \/ (exists q, v = VNum q /\ d = VNum q).
Proof.
  destruct v; simpl; intros H; try discriminate; injection H as <-; eauto.
Qed.

Lemma timeouts_parsed p t d :
  parse TimeoutsSchema p (VObj t) = Valid d ->
  d = VObj [("fetchStories", VNum (timeoutOf "fetchStories" t));
            ("loadState", VNum (timeoutOf "loadState" t));
            ("networkRequests", VNum (timeoutOf "networkRequests" t))].
Proof.
  intros H. unfold TimeoutsSchema in H.
  assert (Hfield : forall k, In k ["fetchStories"; "loadState"; "networkRequests"] ->
            parse (ZDefault ZNumber (num 30000)) (p ++ [Key k])%list (get k t)
            = Valid (VNum (timeoutOf k t))).
  { intros k Hk.
    destruct (parse_object_field_valid _ _ _ _ k
                (ZDefault ZNumber (num 30000)) H) as [dk Hdk].
    { simpl in Hk. simpl. intuition (subst; auto). }
    rewrite Hdk. unfold timeoutOf.
    apply default_number_cases in Hdk as [[-> ->]|[q [-> ->]]]; reflexivity. }
  rewrite parse_object in H. unfold object_fields in H. cbn [map fst snd] in H.
  rewrite !Hfield in H by (simpl; auto).
  unfold mergeObject in H. simpl in H. now injection H as <-.
Qed.

(** X13. An accepted configuration always has all three timeouts, each a number:
    the one given in [timeouts], or 30000 for each one left out and for all
    three when [timeouts] is left out. *)
Theorem timeouts_are_complete env (userConfig : obj) log out :
  parseConfig env userConfig = (log, Returned (VObj out)) ->
  let given := match get "timeouts" userConfig with
               | VObj t => t
               | _ => []
               end in
  get "timeouts" out
  = VObj [("fetchStories", VNum (timeoutOf "fetchStories" given));
          ("loadState", VNum (timeoutOf "loadState" given));
          ("networkRequests", VNum (timeoutOf "networkRequests" given))].
Proof.
  intros H given.
  destruct (parseConfig_base_field env userConfig log _ "timeouts"
              (ZDefault TimeoutsSchema
                 (VObj [("fetchStories", num 30000);
                        ("loadState", num 30000);
                        ("networkRequests", num 30000)])) H)
    as [out' [[= <-] Hout]].
  { simpl. auto 20. }
  remember (get "timeouts" out) as result eqn:Hres. clear Hres.
  unfold given. clear given.
  destruct (get "timeouts" userConfig) as [ | |b|q| |s|xs|t|f];
    try (simpl in Hout; discriminate).
  - simpl in Hout. now injection Hout as <-.
  - change (parse TimeoutsSchema [Key "timeouts"] (VObj t) = Valid result) in Hout.
    now apply timeouts_parsed in Hout.
Qed.

Lemma timeouts_are_complete_witness :
  exists out,
    parseConfig noEnv [("timeouts", VObj [("loadState", num 5)])]
    = ([], Returned (VObj out))
    /\ get "timeouts" out
       = VObj [("fetchStories", num 30000);
               ("loadState", num 5);
               ("networkRequests", num 30000)].
Proof.
  pose proof (fun out H =>
                timeouts_are_complete noEnv
                  [("timeouts", VObj [("loadState", num 5)])] [] out H)
    as Hthm.
  eexists. split; [|apply Hthm]; vm_compute; reflexivity.
Defined.

Lemma required_undefined s p :
  required s = true -> parse s p VUndefined = Invalid [mkIssue p "Required"].
Proof. destruct s; simpl; intros H; try discriminate; reflexivity. Qed.

(** X14. The fields the shot schemas require ([breakpoints] of a page among
    them), and what happens without one: the object is rejected with
    [Required] at that field. *)
Theorem required_fields_are_reported :
  map requiredKeys shotSchemas
  = [["selector"];
     ["path"; "name"; "breakpoints"];
     ["storybookUrl"];
     ["ladleUrl"];
     ["histoireUrl"];
     ["pages"; "baseUrl"];
     ["currentShotsPath"]]
  /\ forall shape k p (o : obj),
       In (ZObject shape) shotSchemas ->
       In k (requiredKeys (ZObject shape)) ->
       get k o = VUndefined ->
       exists issues,
         parse (ZObject shape) p (VObj o) = Invalid issues
         /\ In (mkIssue (p ++ [Key k])%list "Required") issues.
Proof.
  split; [reflexivity|].
  intros shape k p o _ Hk Hu. unfold requiredKeys in Hk.
  apply in_map_iff in Hk as [[k' s] [Hk Hin]]. simpl in Hk. subst k'.
  apply filter_In in Hin as [Hin Hreq]. simpl in Hreq.
  destruct (parse_object_field_invalid shape p o k s
              [mkIssue (p ++ [Key k])%list "Required"] Hin)
    as [issues [Herr Hincl]].
  - rewrite Hu. now apply required_undefined.
  - exists issues. split; [exact Herr|]. apply Hincl. now left.
Qed.

Lemma required_fields_are_reported_witness :
  exists issues,
    parse PageScreenshotParameterSchema
      [Key "pageShots"; Key "pages"; Idx 0]
      (VObj [("path", VStr "/"); ("name", VStr "home")])
    = Invalid issues
    /\ In (mkIssue [Key "pageShots"; Key "pages"; Idx 0; Key "breakpoints"]
             "Required")
          issues.
Proof.
  apply (proj2 required_fields_are_reported
           _ "breakpoints" [Key "pageShots"; Key "pages"; Idx 0]
           [("path", VStr "/"); ("name", VStr "home")]).
  - simpl. auto 10.
  - simpl. auto.
  - reflexivity.
Defined.

Lemma optional_field_stays_absent shape p src parsed k inner :
  NoDup (map fst shape) ->
  In (k, ZOptional inner) shape ->
  parse (ZObject shape) p (VObj src) = Valid parsed ->
  get k src = VUndefined ->
  exists out, parsed = VObj out /\ get k out = VUndefined.
Proof.
  intros Hnd Hin H Hu.
  destruct (parse_object_data _ _ _ _ _ _ Hnd H Hin) as [out [-> Hout]].
  exists out. split; [reflexivity|]. rewrite Hu in Hout. simpl in Hout.
  now injection Hout as <-.
Qed.

Lemma parse_optional_object inner p o :
  parse (ZOptional inner) p (VObj o) = parse inner p (VObj o).
Proof. reflexivity. Qed.

Lemma source_breakpoints_absent shape p source result :
  NoDup (map fst shape) ->
  (exists inner, In ("breakpoints", ZOptional inner) shape)
  \/ ~ In "breakpoints" (map fst shape) ->
  parse (ZObject shape) p (VObj source) = Valid result ->
  get "breakpoints" source = VUndefined ->
  exists parsed, result = VObj parsed /\ get "breakpoints" parsed = VUndefined.
Proof.
  intros Hnd [[inner Hin]|Hnot] H Hu.
  - exact (optional_field_stays_absent _ _ _ _ _ _ Hnd Hin H Hu).
  - pose proof H as H'. rewrite parse_object in H'.
    apply mergeObject_valid in H' as [_ ->].
    eexists. split; [reflexivity|]. apply get_absent.
    destruct (has "breakpoints" _) eqn:E; [|reflexivity].
    apply (parse_object_keys _ _ _ _ _ H) in E. contradiction.
Qed.

(** X15. Only the global [breakpoints] have a default: an accepted
    configuration always has an array there, empty when none is given,
    while a shot source given without [breakpoints] is installed without
    them, [ladleShots] included. *)
Theorem breakpoints_default_only_globally env (userConfig : obj) log out :
  parseConfig env userConfig = (log, Returned (VObj out)) ->
  (exists widths,
     get "breakpoints" out = VArr widths
     /\ (get "breakpoints" userConfig = VUndefined -> widths = []))
  /\ (forall k s source,
        In (k, s) sourceFields ->
        get k userConfig = VObj source ->
        get "breakpoints" source = VUndefined ->
        exists parsed,
          get k out = VObj parsed /\ get "breakpoints" parsed = VUndefined).
Proof.
  intros H. split.
  - destruct (parseConfig_base_field env userConfig log _ "breakpoints"
                (ZDefault (ZArray ZNumber) (VArr [])) H)
      as [out' [[= <-] Hout]].
    { simpl. auto 20. }
    remember (get "breakpoints" out) as result eqn:Hres. clear Hres.
    destruct (get "breakpoints" userConfig) as [ | |b|q| |s|xs|o|f];
      simpl in Hout; try discriminate.
    + injection Hout as <-. exists []. now split.
    + unfold mergeArray in Hout.
      destruct (forallb is_valid _); [|discriminate].
      injection Hout as <-. eexists. split; [reflexivity | discriminate].
  - intros k s source Hk Hsrc Hu.
    destruct (parseConfig_base_field env userConfig log _ k s H)
      as [out' [[= <-] Hout]].
    { now apply sourceFields_base. }
    rewrite Hsrc in Hout.
    remember (get k out) as result eqn:Hres. clear Hres.
    simpl in Hk.
    destruct Hk as [[= <- <-]|[[= <- <-]|[[= <- <-]|[[= <- <-]|[[= <- <-]|[]]]]]];
      rewrite parse_optional_object in Hout.
    + unfold StorybookShotsSchema in Hout.
      eapply source_breakpoints_absent in Hout; eauto.
      * nodup_strings.
      * left. exists (ZArray ZNumber). simpl. auto.
    + unfold LadleShotsSchema in Hout.
      eapply source_breakpoints_absent in Hout; eauto.
      * nodup_strings.
      * left. exists (ZDefault (ZArray ZNumber) (VArr [])). simpl. auto.
    + unfold HistoireShotsSchema in Hout.
      eapply source_breakpoints_absent in Hout; eauto.
      * nodup_strings.
      * left. exists (ZArray ZNumber). simpl. auto.
    + unfold PageShotsSchema in Hout.
      eapply source_breakpoints_absent in Hout; eauto.
      * nodup_strings.
      * left. exists (ZArray ZNumber). simpl. auto 10.
    + unfold CustomShotsSchema in Hout.
      eapply source_breakpoints_absent in Hout; eauto.
      * nodup_strings.
      * right. simpl. intuition discriminate.
Qed.

Lemma breakpoints_default_only_globally_witness :
  exists out widths,
    parseConfig noEnv [("ladleShots", VObj [("ladleUrl", VStr "http://localhost:61000")])]
    = ([], Returned (VObj out))
    /\ get "breakpoints" out = VArr widths
    /\ widths = [].
Proof.
  pose proof (fun out H =>
                proj1 (breakpoints_default_only_globally noEnv
                         [("ladleShots",
                           VObj [("ladleUrl", VStr "http://localhost:61000")])]
                         [] out H))
    as Hthm.
  edestruct Hthm as [widths [Hw Hnil]].
  - vm_compute. reflexivity.
  - eexists. exists widths. split; [reflexivity|]. split; [exact Hw|].
    now apply Hnil.
Defined.

(* ------------------------------------------------------------------ *)
(** ** Parsing what was parsed *)

Lemma distinct_NoDup l : distinct l = true -> NoDup l.
Proof.
  induction l as [|x rest IH]; simpl; [constructor|].
  intros H. apply andb_true_iff in H as [Hx Hrest].
  constructor; [|now apply IH].
  intros Hin. apply negb_true_iff in Hx.
  assert (mem x rest = true); [|congruence].
  unfold mem. apply existsb_exists. exists x. split; [exact Hin|].
  apply String.eqb_refl.
Qed.

Lemma first_valid_In rs d :
  first_valid rs = Some d -> In (Valid d) rs.
Proof.
  induction rs as [|[d'|e] rest IH]; simpl; [discriminate| |].
  - intros [= ->]. now left.
  - intros H. right. now apply IH.
Qed.

Lemma mergeArray_valid rs d :
  mergeArray rs = Valid d ->
  forallb is_valid rs = true /\ d = VArr (flat_map item_output rs).
Proof.
  unfold mergeArray. destruct (forallb is_valid rs); [|discriminate].
  intros [= <-]. now split.
Qed.

(** Only [undefined] parses to [undefined]. *)
Lemma valid_undefined s :
  forall p v, parse s p v = Valid VUndefined -> v = VUndefined.
Proof.
  induction s as [ | | | | options | element IH | shape IH | inner IH
                 | inner dflt IH | alternatives IH ] using schema_ind;
    intros p v H.
  - destruct v; simpl in H; congruence.
  - destruct v; simpl in H; congruence.
  - destruct v; simpl in H; congruence.
  - destruct v; simpl in H; congruence.
  - destruct v; simpl in H; try congruence.
    destruct (mem s options); discriminate.
  - destruct v; simpl in H; try congruence.
    apply mergeArray_valid in H as [_ H]. discriminate.
  - destruct v; try (simpl in H; congruence).
    rewrite parse_object in H. apply mergeObject_valid in H as [_ H].
    discriminate.
  - destruct v; simpl in H; try reflexivity; now apply IH in H.
  - destruct v; simpl in H; try reflexivity; now apply IH in H.
  - simpl in H.
    destruct (first_valid (map (fun a => parse a p v) alternatives))
      as [d|] eqn:E; [|discriminate].
    injection H as ->. apply first_valid_In in E.
    apply in_map_iff in E as [a [Ha Hin]].
    rewrite Forall_forall in IH. exact (IH a Hin _ _ Ha).
Qed.

Lemma lookup_In {A} k (v : A) o : lookup k o = Some v -> In (k, v) o.
Proof.
  induction o as [|[k' v'] rest IH]; simpl; [discriminate|].
  destruct (String.eqb_spec k k') as [->|Hne].
  - intros [= ->]. now left.
  - intros H. right. now apply IH.
Qed.

(** Whether a key of the shape is written to the output. *)
Lemma field_output_has (F : string * schema -> field) shape k s b dk :
  (forall ks, fst (fst (F ks)) = fst ks) ->
  NoDup (map fst shape) ->
  In (k, s) shape ->
  F (k, s) = (k, b, Valid dk) ->
  has k (flat_map field_output (map F shape)) = negb (is_undefined dk) || b.
Proof.
  intros HF. induction shape as [|[k0 s0] rest IH]; simpl; [tauto|].
  intros Hnd Hin HFk. inversion Hnd as [|? ? Hnot Hnd']; subst.
  assert (Happ : forall (a b' : obj),
            has k (a ++ b')%list = has k a || has k b').
  { induction a as [|[ka va] a IHa]; simpl; [reflexivity|].
    intros b'. destruct (String.eqb k ka); [reflexivity | apply IHa]. }
  rewrite Happ.
  destruct Hin as [[= -> ->]|Hin].
  - rewrite HFk. simpl.
    assert (Hrest : has k (flat_map field_output (map F rest)) = false).
    { destruct (has k _) eqn:E; [|reflexivity].
      apply field_output_keys in E. rewrite map_map in E.
      exfalso. apply Hnot.
      rewrite (map_ext fst (fun x => fst (fst (F x)))); [exact E|].
      intros a. symmetry. apply HF. }
    rewrite Hrest, orb_false_r.
    destruct (negb (is_undefined dk) || b); simpl;
      [now rewrite String.eqb_refl | reflexivity].
  - assert (Hne : k <> k0).
    { intros ->. apply Hnot. apply in_map_iff. now exists (k0, s). }
    assert (Hhead : has k (field_output (F (k0, s0))) = false).
    { destruct (has k (field_output (F (k0, s0)))) eqn:E; [|reflexivity].
      specialize (HF (k0, s0)). destruct (F (k0, s0)) as [[k1 b1] r1].
      simpl in HF. subst k1. destruct r1 as [d1|]; simpl in E; [|discriminate].
      destruct (negb (is_undefined d1) || b1); simpl in E; [|discriminate].
      destruct (String.eqb_spec k k0); [contradiction | discriminate]. }
    rewrite Hhead. simpl. now apply IH.
Qed.

Lemma flat_map_map_ext {A B C} (f : B -> list C) (g h : A -> B) l :
  (forall a, In a l -> f (g a) = f (h a)) ->
  flat_map f (map g l) = flat_map f (map h l).
Proof.
  induction l as [|a rest IH]; simpl; [reflexivity|].
  intros H. rewrite (H a) by now left. f_equal. apply IH.
  intros a' Ha'. apply H. now right.
Qed.

Lemma no_functions_get k (o : obj) :
  no_functions (VObj o) = true -> no_functions (get k o) = true.
Proof.
  intros H. unfold get. destruct (lookup k o) as [v|] eqn:E; [|reflexivity].
  apply lookup_In in E. simpl in H. rewrite forallb_forall in H.
  exact (H (k, v) E).
Qed.

Lemma mergeArray_valids ds : mergeArray (map Valid ds) = Valid (VArr ds).
Proof.
  unfold mergeArray.
  assert (Hvalid : forallb is_valid (map Valid ds) = true).
  { induction ds as [|a rest IHds]; simpl; auto. }
  assert (Hout : flat_map item_output (map Valid ds) = ds).
  { induction ds as [|a rest IHds]; simpl; [reflexivity|].
    simpl in Hvalid. now rewrite (IHds Hvalid). }
  now rewrite Hvalid, Hout.
Qed.

Lemma array_reparse element p p' :
  (forall p v d, parse element p v = Valid d -> no_functions d = true ->
                 forall p', parse element p' d = Valid d) ->
  forall items i j,
    forallb is_valid
      (mapi_from (fun i x => parse element (p ++ [Idx i])%list x) i items)
    = true ->
    forallb no_functions
      (flat_map item_output
         (mapi_from (fun i x => parse element (p ++ [Idx i])%list x) i items))
    = true ->
    mergeArray
      (mapi_from (fun i x => parse element (p' ++ [Idx i])%list x) j
         (flat_map item_output
            (mapi_from (fun i x => parse element (p ++ [Idx i])%list x) i items)))
    = Valid
        (VArr
           (flat_map item_output
              (mapi_from (fun i x => parse element (p ++ [Idx i])%list x) i items))).
Proof.
  intros IH items i j Hv Hn.
  rewrite <- mergeArray_valids. f_equal.
  revert i j Hv Hn. induction items as [|x rest IHitems]; intros i j Hv Hn;
    [reflexivity|].
  cbn [mapi_from] in Hv, Hn |- *. cbn [forallb] in Hv.
  apply andb_true_iff in Hv as [Hx Hv].
  destruct (parse element (p ++ [Idx i])%list x) as [d0|] eqn:E;
    [|discriminate].
  cbn [flat_map item_output app] in Hn |- *. cbn [forallb] in Hn.
  apply andb_true_iff in Hn as [Hn0 Hn].
  cbn [mapi_from map]. rewrite (IH _ _ _ E Hn0). f_equal.
  now apply IHitems.
Qed.

(** Parsing again what a plain schema has produced, functions apart, gives
    it back. *)
Lemma parse_idempotent s :
  plain s = true ->
  forall p v d, parse s p v = Valid d -> no_functions d = true ->
  forall p', parse s p' d = Valid d.
Proof.
  induction s as [ | | | | options | element IH | shape IH | inner IH
                 | inner dflt IH | alternatives IH ] using schema_ind;
    intros Hplain p v d H Hnf p'.
  - destruct v; simpl in H; try discriminate. now injection H as <-.
  - destruct v; simpl in H; try discriminate. now injection H as <-.
  - destruct v; simpl in H; try discriminate. now injection H as <-.
  - destruct v; simpl in H; try discriminate. injection H as <-. discriminate.
  - destruct v; simpl in H; try discriminate.
    destruct (mem s options) eqn:E; [|discriminate].
    injection H as <-. simpl. now rewrite E.
  - destruct v; simpl in H; try discriminate. simpl in Hplain.
    specialize (IH Hplain).
    apply mergeArray_valid in H as [Hall ->]. simpl in Hnf. simpl.
    apply (array_reparse element p p' IH items 0 0 Hall Hnf).
  - destruct v; try (simpl in H; discriminate).
    simpl in Hplain. apply andb_true_iff in Hplain as [Hdistinct Hplain].
    apply distinct_NoDup in Hdistinct. rewrite forallb_forall in Hplain.
    rewrite Forall_forall in IH.
    pose proof H as Hparse.
    rewrite parse_object in H. apply mergeObject_valid in H as [Hall ->].
    set (out := flat_map field_output (object_fields shape p props)) in *.
    assert (Hfield : forall k s, In (k, s) shape ->
              exists dk,
                parse s (p ++ [Key k])%list (get k props) = Valid dk
                /\ get k out = dk
                /\ has k out = negb (is_undefined dk) || has k props
                /\ parse s (p' ++ [Key k])%list dk = Valid dk).
    { intros k s Hin.
      destruct (parse_object_field_valid _ _ _ _ _ _ Hparse Hin) as [dk Hdk].
      exists dk. split; [exact Hdk|].
      assert (Hget : get k out = dk).
      { unfold out, object_fields.
        apply (field_output_get _ shape k s (has k props) dk); auto.
        simpl. now rewrite Hdk. }
      split; [exact Hget|]. split.
      - unfold out, object_fields.
        apply (field_output_has _ shape k s (has k props) dk); auto.
        simpl. now rewrite Hdk.
      - apply (IH (k, s) Hin (Hplain (k, s) Hin) _ _ _ Hdk).
        rewrite <- Hget. now apply no_functions_get. }
    rewrite parse_object.
    assert (Hsame : flat_map field_output (object_fields shape p' out) = out).
    { unfold out at 2. unfold object_fields.
      apply flat_map_map_ext. intros [k s] Hin. simpl.
      destruct (Hfield k s Hin) as [dk [Hdk [Hget [Hhas Hre]]]].
      rewrite Hget, Hre, Hdk, Hhas. simpl.
      destruct (is_undefined dk); simpl; [|reflexivity].
      now destruct (has k props). }
    rewrite <- Hsame at 2. apply mergeObject_all_valid.
    apply Forall_forall. intros f Hf. unfold object_fields in Hf.
    apply in_map_iff in Hf as [[k s] [<- Hin]]. simpl.
    destruct (Hfield k s Hin) as [dk [_ [Hget [_ Hre]]]].
    now rewrite Hget, Hre.
  - simpl in Hplain. destruct d; try (destruct v; simpl in H;
      solve [ discriminate | exact (IH Hplain _ _ _ H Hnf p') ]).
    reflexivity.
  - simpl in Hplain.
    assert (Hinner : exists v', parse inner p v' = Valid d
                                /\ (v = VUndefined -> v' = dflt)).
    { destruct v; simpl in H;
        try (eexists; split; [exact H | discriminate]).
      exists dflt. split; [exact H | reflexivity]. }
    destruct Hinner as [v' [Hv' Hdflt]].
    destruct d; try exact (IH Hplain _ _ _ Hv' Hnf p').
    simpl. pose proof (valid_undefined _ _ _ Hv') as Hu. subst v'.
    assert (Hd : dflt = VUndefined).
    { pose proof (valid_undefined _ _ _ H) as Hv. symmetry. now apply Hdflt. }
    rewrite Hd. exact (IH Hplain _ _ _ Hv' Hnf p').
  - discriminate.
Qed.

Lemma schemaFor_plain env c : plain (schemaFor env c) = true.
Proof.
  unfold schemaFor. destruct (isPlatformModeConfig c); vm_compute; reflexivity.
Qed.

(** X6. The configuration [parseConfig] returns is in the mode of the
    configuration it was given, and, when it holds no hook function, giving
    it to [parseConfig] again returns it unchanged. *)
Theorem parseConfig_is_idempotent env (userConfig : obj) log out :
  parseConfig env userConfig = (log, Returned (VObj out)) ->
  isPlatformModeConfig out = isPlatformModeConfig userConfig
  /\ (no_functions (VObj out) = true ->
      parseConfig env out = ([], Returned (VObj out))).
Proof.
  intros H.
  destruct (returned_config_mode env userConfig log _ H) as [out' [[= <-] Hmode]].
  split; [exact Hmode|]. intros Hnf.
  apply parseConfig_returned in H as [_ H].
  rewrite parseConfig_schemaFor.
  assert (Hs : schemaFor env out = schemaFor env userConfig).
  { unfold schemaFor. now rewrite Hmode. }
  rewrite Hs. unfold safeParse in *.
  now rewrite (parse_idempotent _ (schemaFor_plain env userConfig) _ _ _ H Hnf []).
Qed.

Lemma parseConfig_is_idempotent_witness :
  exists out,
    parseConfig noEnv threeFamiliesConfig = ([], Returned (VObj out))
    /\ parseConfig noEnv out = ([], Returned (VObj out)).
Proof.
  pose proof (fun out H =>
                proj2 (parseConfig_is_idempotent noEnv threeFamiliesConfig
                         [] out H))
    as Hthm.
  eexists. split; [|apply Hthm]; vm_compute; reflexivity.
Defined.

(* ------------------------------------------------------------------ *)
(** ** Hooks, and [configure] as a whole *)

Lemma hookFields_base k :
  In k hookFields -> In (k, ZOptional ZFunction) BaseConfigShape.
Proof.
  intros H. simpl in H.
  repeat (destruct H as [<-|H]; [simpl; auto 30|]). contradiction.
Qed.

(** X16. A hook is a function or is left out: an accepted configuration holds
    the checking wrapper of the function given, or nothing; anything else
    given as a hook is rejected with an issue at the hook. *)
Theorem hooks_are_functions env (userConfig : obj) k :
  In k hookFields ->
  (forall log out,
     parseConfig env userConfig = (log, Returned (VObj out)) ->
     (get k userConfig = VUndefined /\ get k out = VUndefined)
     \/ (exists f, get k userConfig = VFun f /\ get k out = VFun (Checked f)))
  /\ (get k userConfig <> VUndefined ->
      (forall f, get k userConfig <> VFun f) ->
      exists issues,
        parseConfig env userConfig = (printConfigErrors issues, Exited 1)
        /\ In (mkIssue [Key k]
                 ("Expected function, received " ++ parsedType (get k userConfig)))
              issues).
Proof.
  intros Hk. apply hookFields_base in Hk. split.
  - intros log out H.
    destruct (parseConfig_base_field env userConfig log _ k
                (ZOptional ZFunction) H Hk) as [out' [[= <-] Hout]].
    remember (get k out) as result eqn:Hres. clear Hres.
    destruct (get k userConfig) as [ | |b|q| |s|xs|o|f]; simpl in Hout;
      try discriminate; injection Hout as <-; eauto.
  - intros Hu Hf.
    destruct (schemaFor_shape env userConfig) as [shape [Hs [Hbase _]]].
    destruct (parse_object_field_invalid shape [] userConfig k
                (ZOptional ZFunction)
                [mkIssue [Key k]
                   ("Expected function, received "
                      ++ parsedType (get k userConfig))])
      as [issues [Herr Hincl]].
    + now apply Hbase.
    + destruct (get k userConfig) as [ | |b|q| |s|xs|o|f]; try reflexivity.
      * congruence.
      * elim (Hf f). reflexivity.
    + exists issues. split; [|apply Hincl; now left].
      rewrite parseConfig_schemaFor, Hs. unfold safeParse. now rewrite Herr.
Qed.

Lemma hooks_are_functions_witness :
  exists issues,
    parseConfig noEnv [("filterShot", VBool true)]
    = (printConfigErrors issues, Exited 1)
    /\ In (mkIssue [Key "filterShot"] "Expected function, received boolean")
          issues.
Proof.
  destruct (hooks_are_functions noEnv [("filterShot", VBool true)] "filterShot")
    as [_ H].
  - simpl. auto.
  - apply H; [discriminate | intros f; discriminate].
Defined.

Section ConfigureFacts.

Variables (cwd : string) (LOST_PIXEL_CONFIG_DIR : option string).
Variables (isAbsolute : string -> bool) (pathJoin : list string -> string).
Variable existsSync : string -> bool.
Variables loadProjectConfigFile loadTSProjectConfigFile require : string -> loading.
Variable env : environment.
Variable withLocalhost : urlRuntime.

Lemma parseConfig_ends c :
  snd (parseConfig env c) = Exited 1
  \/ exists data, snd (parseConfig env c) = Returned data.
Proof.
  rewrite parseConfig_schemaFor.
  destruct (safeParse (schemaFor env c) (VObj c)); simpl; eauto.
Qed.

(** [parseConfig] throws on nothing but a value that is not an object. *)
Lemma parseConfigValue_ends v :
  snd (parseConfigValue env v) = Exited 1
  \/ (exists data, snd (parseConfigValue env v) = Returned data)
  \/ (isObject v = false /\ exists e, snd (parseConfigValue env v) = Threw e).
Proof.
  destruct v as [ | |b|q| |s|items|config|f]; simpl;
    try (right; right; split; [reflexivity | eauto]); auto.
  destruct (parseConfig_ends config) as [H|H]; auto.
Qed.

Lemma loadProjectConfig_ends :
  let result :=
    snd (loadProjectConfig cwd LOST_PIXEL_CONFIG_DIR isAbsolute pathJoin
           existsSync loadProjectConfigFile loadTSProjectConfigFile require) in
  result = Exited 1 \/ exists c, result = Returned c.
Proof.
  unfold loadProjectConfig.
  destruct (configFiles cwd LOST_PIXEL_CONFIG_DIR isAbsolute pathJoin existsSync)
    as [|f others]; [now left|].
  destruct (loadProjectConfigFile f) as [c|e]; [right; now exists c|].
  pose proof (loadFallback_ends cwd LOST_PIXEL_CONFIG_DIR isAbsolute pathJoin
                existsSync loadTSProjectConfigFile require f) as Hfb.
  simpl in Hfb.
  destruct (loadFallback cwd LOST_PIXEL_CONFIG_DIR isAbsolute pathJoin
              existsSync loadTSProjectConfigFile require f) as [lines result].
  simpl in *. destruct Hfb as [->|[c [-> _]]]; eauto.
Qed.

(** How [configure] ends on a loaded configuration object. *)
Lemma configure_ends localDebugMode (config : obj) :
  let result := snd (configure env withLocalhost None localDebugMode config) in
  result = Exited 1
  \/ (exists data, result = Returned data)
  \/ (localDebugMode = true
      /\ exists e, localDebug withLocalhost config = Threw e /\ result = Threw e).
Proof.
  unfold configure. destruct localDebugMode.
  - destruct (localDebug withLocalhost config) as [c'|code|e] eqn:El.
    + destruct (parseConfig_ends (defaultMode c')) as [H|H]; auto.
    + exfalso. unfold localDebug in El.
      destruct (useLocalhost_cases withLocalhost
                  (if isPlatformModeConfig config
                   then forceGenerateOnly config else config))
        as [[e He]|[He|[v He]]]; congruence.
    + simpl. right. right. split; [reflexivity|]. eauto.
  - destruct (parseConfig_ends (defaultMode config)) as [H|H]; auto.
Qed.

(** X17. [configure] as a whole, loading included, ends the process with no
    other exit code than 1, and it throws only when the configuration in
    use (the custom one when it is truthy, else what the project file
    exports) is not an object, or, in local debug mode, when the rewrite of
    the base URL throws; a loader that fails never makes it throw. *)
Theorem configure_installs_or_exits customProjectConfig localDebugMode :
  let loaded :=
    snd (loadProjectConfig cwd LOST_PIXEL_CONFIG_DIR isAbsolute pathJoin
           existsSync loadProjectConfigFile loadTSProjectConfigFile require) in
  let result :=
    snd (configureProject cwd LOST_PIXEL_CONFIG_DIR isAbsolute pathJoin
           existsSync loadProjectConfigFile loadTSProjectConfigFile require
           env withLocalhost customProjectConfig localDebugMode) in
  (forall code, result = Exited code -> code = 1%Z)
  /\ (forall e,
        result = Threw e ->
        (truthy customProjectConfig = true
         /\ isObject customProjectConfig = false)
        \/ (truthy customProjectConfig = false
            /\ exists exported,
                 loaded = Returned exported
                 /\ (isObject exported = false
                     \/ (localDebugMode = true
                         /\ exists config,
                              exported = VObj config
                              /\ localDebug withLocalhost config = Threw e)))).
Proof.
  unfold configureProject.
  destruct (truthy customProjectConfig) eqn:Ecustom.
  - destruct (parseConfigValue_ends customProjectConfig)
      as [H|[[data H]|[Hobj [e' H]]]];
      destruct (parseConfigValue env customProjectConfig) as [lines result];
      simpl in *; subst; split; intros; try congruence; auto.
  - pose proof loadProjectConfig_ends as Hload. simpl in Hload.
    destruct (loadProjectConfig cwd LOST_PIXEL_CONFIG_DIR isAbsolute pathJoin
                existsSync loadProjectConfigFile loadTSProjectConfigFile require)
      as [lines loaded].
    simpl in Hload. destruct Hload as [->|[exported ->]].
    { simpl. split; intros; congruence. }
    unfold configureLoaded.
    destruct exported as [ | |b|q| |s|items|config|f];
      try (simpl; split; intros; [discriminate|];
           right; split; [reflexivity|]; eexists; split; [reflexivity|];
           left; reflexivity).
    + destruct (parseConfigValue_ends (VArr items))
        as [H|[[data H]|[Hobj _]]]; [| |discriminate];
        destruct (parseConfigValue env (VArr items)) as [more result];
        simpl in *; subst; split; intros; congruence.
    + destruct (configure_ends localDebugMode config)
        as [H|[[data H]|[Hdbg [e' [Hthrow H]]]]];
        destruct (configure env withLocalhost None localDebugMode config)
          as [more result];
        simpl in *; subst; split; intros; try congruence.
      right. split; [reflexivity|]. eexists. split; [reflexivity|].
      right. split; [reflexivity|]. exists config. split; [reflexivity|].
      congruence.
    + destruct (parseConfigValue_ends (VFun f))
        as [H|[[data H]|[Hobj _]]]; [| |discriminate];
        destruct (parseConfigValue env (VFun f)) as [more result];
        simpl in *; subst; split; intros; congruence.
Qed.

End ConfigureFacts.

Lemma configure_installs_or_exits_witness :
  (truthy VUndefined = true /\ isObject VUndefined = false)
  \/ (truthy VUndefined = false
      /\ exists exported,
           snd (loadProjectConfig "/project" None (fun _ => true) joinSegments
                  (directory ["/project/lostpixel.config.js"])
                  loadsNull neverLoads neverLoads)
           = Returned exported
           /\ (isObject exported = false
               \/ (false = true
                   /\ exists config,
                        exported = VObj config
                        /\ localDebug noUrl config = Threw "TypeError"))).
Proof.
  apply (configure_installs_or_exits "/project" None (fun _ => true)
           joinSegments (directory ["/project/lostpixel.config.js"])
           loadsNull neverLoads neverLoads noEnv noUrl VUndefined false).
  reflexivity.
Defined.
